(** * DbWaveletGrid: the cascade construction of Daubechies grids

    A shallow embedding of [DbWaveletGrid.cpp] (the VES module of PLUMED):
    [setupGrid], [setupMatrices], [calcIntegerValues], [getEigenvector],
    [cascade] and [fillGridFromMaps], followed by the properties of the
    design document that can be settled on it.

    Conventions.
    - [unsigned] values are integers in [Z] reduced modulo [2^32] after
      every arithmetic operation ([wrap32]).
    - [double] values are the elements of an arbitrary carrier with the
      operations the code uses ([Scalar]); the IEEE binary64 numbers of the
      kernel are one instance ([float_scalar]), used for concrete runs.
    - a C++ call either returns, throws, or has no defined behaviour
      ([outcome]).
    - [std::unordered_map<std::string, std::vector<double>>] is a
      [gmap string (list R)]; its iteration order is the one of
      [map_to_list], and every statement about what an iteration produces
      is made up to permutation. *)

From Stdlib Require Import ZArith Lia Ascii Floats.PrimFloat Floats.FloatOps Floats.SpecFloat.
From stdpp Require Import gmap strings list fin_maps pretty.

Local Open Scope Z_scope.
Delimit Scope char_scope with char.
Set Warnings "-clear-no-such-hyp".

(** ** Outcomes of a call *)

(** The exceptions named in this development: the two that [std::stoi] can
    throw, and the four error kinds of the design document (section 7).
    No function of [DbWaveletGrid.cpp] contains a [throw] of its own. *)
Inductive exception : Type :=
| invalid_argument
| out_of_range
| ConfigurationError
| LinearAlgebraError
| NumericalError
| InternalConsistencyError.

Inductive outcome (A : Type) : Type :=
| Returns (a : A)
| Throws (e : exception)
| Undefined.

Arguments Returns {A} a.
Arguments Throws {A} e.
Arguments Undefined {A}.

#[global] Instance outcome_ret : MRet outcome := @Returns.
#[global] Instance outcome_bind : MBind outcome := fun A B f x =>
  match x with
  | Returns a => f a
  | Throws e => Throws e
  | Undefined => Undefined
  end.

(** ** Machine integers *)

Definition wrap32 (z : Z) : Z := z mod 2 ^ 32.

Definition INT_MAX : Z := 2 ^ 31 - 1.

(** [1 << n] evaluated in [int] and converted to [unsigned], for a shift
    count below the width of [int] (for [n = 31] the [int] is [INT_MIN],
    which converts to [2^31]). *)
Definition shl1 (n : nat) : Z := wrap32 (Z.shiftl 1 (Z.of_nat n)).

(** ** Grid sizing (setupGrid, lines 40-46) *)

Record GridDims : Type := mkDims {
  dims_recursion_number : nat;
  dims_bins_per_int : Z;
  dims_gridsize : Z
}.

(** [while (maxsupport*(1<<recursion_number) < gridsize) recursion_number++;]
    The fuel is the number of shift counts for which [1 << recursion_number]
    is defined (0 to 31); running out of it means that the loop reached
    [1 << 32]. *)
Fixpoint recursion_loop (fuel : nat) (maxsupport gridsize : Z) (recursion_number : nat)
  : outcome nat :=
  match fuel with
  | O => Undefined
  | S fuel' =>
      if wrap32 (maxsupport * shl1 recursion_number) <? gridsize
      then recursion_loop fuel' maxsupport gridsize (S recursion_number)
      else Returns recursion_number
  end.

Definition setupDims (order gridsize : Z) : outcome GridDims :=
  let maxsupport := wrap32 (wrap32 (order * 2) - 1) in
  recursion_number ← recursion_loop 32 maxsupport gridsize 0;
  let bins_per_int := shl1 recursion_number in
  let gridsize := wrap32 (maxsupport * bins_per_int) in
  Returns (mkDims recursion_number bins_per_int gridsize).

(** ** Scalars *)

(** The operations on [double] that the code uses. *)
Class Scalar (R : Type) : Type := {
  r0 : R;                  (* the literal 0. and value-initialised elements *)
  rhalf : R;               (* the literal 0.5 *)
  radd : R -> R -> R;
  rsub : R -> R -> R;
  rmul : R -> R -> R;
  rdiv : R -> R -> R;
  of_int : Z -> R;         (* conversion of an integer value to double *)
  to_int : R -> Z;         (* static_cast<int> *)
  rpow : R -> R -> R       (* std::pow on doubles *)
}.

(** ** Strings *)

(** [std::stoi(s, nullptr, 2)] on a string that starts with a binary digit:
    the value of the longest prefix of binary digits. A string that does
    not start with a digit gives no conversion; a value above [INT_MAX]
    is out of range. (Leading white space and signs, which [std::stoi]
    accepts, do not occur in the keys of a BinaryMap and are not modelled.) *)
Fixpoint binary_prefix (s : string) (acc : Z) : Z :=
  match s with
  | EmptyString => acc
  | String c s' =>
      if Ascii.eqb c "0"%char then binary_prefix s' (2 * acc)
      else if Ascii.eqb c "1"%char then binary_prefix s' (2 * acc + 1)
      else acc
  end.

Definition starts_with_digit (s : string) : bool :=
  match s with
  | EmptyString => false
  | String c _ => Ascii.eqb c "0"%char || Ascii.eqb c "1"%char
  end.

Definition stoi (s : string) : outcome Z :=
  if starts_with_digit s then
    let v := binary_prefix s 0 in
    if v <=? INT_MAX then Returns v else Throws out_of_range
  else Throws invalid_argument.

(** A loop whose body can fail. *)
Fixpoint for_each {A S : Type} (body : S -> A -> outcome S) (l : list A) (s : S)
  : outcome S :=
  match l with
  | [] => Returns s
  | x :: l' => s' ← body s x; for_each body l' s'
  end.

Section DbWaveletGrid.

Context {R : Type} `{Scalar R}.

(** ** Matrices *)

(** Modelled from the spec: the dense matrix capability of section 6
    (element access, scalar multiplication, matrix-vector multiplication);
    [tools/Matrix.h] is not among the sources. Storage is row-major, so
    that [A(i,j)] is [data[j + i*cl]], and a freshly resized matrix holds
    zeros. An index outside the storage reads [r0] and writes nothing. *)
Record Matrix : Type := mkMatrix {
  rw : nat;
  cl : nat;
  data : list R
}.

(** Modelled from the spec: [M.resize(nr, nc)] on a default-constructed
    matrix of [tools/Matrix.h], which leaves [nr * nc] zeros. *)
Definition mat_resize (nr nc : nat) : Matrix :=
  mkMatrix nr nc (replicate (nr * nc) r0).

(** Modelled from the spec: element access [A(i,j)] and [A[i][j]] of
    [tools/Matrix.h], for reading. *)
Definition mat_get (A : Matrix) (i j : nat) : R :=
  nth (j + i * cl A) (data A) r0.

(** Modelled from the spec: element access [A[i][j] = v] of
    [tools/Matrix.h], for writing. *)
Definition mat_set (A : Matrix) (i j : nat) (v : R) : Matrix :=
  mkMatrix (rw A) (cl A) (<[(j + i * cl A)%nat := v]> (data A)).

(** Modelled from the spec: scalar multiplication [M *= v] of
    [tools/Matrix.h], element by element. *)
Definition mat_scale (A : Matrix) (v : R) : Matrix :=
  mkMatrix (rw A) (cl A) (map (fun x => rmul x v) (data A)).

(** Modelled from the spec: matrix-vector multiplication [mult(A, B, C)]
    of [tools/Matrix.h]; the result is the vector [C] that the call
    leaves, each component accumulated from 0 in the order of the
    columns. *)
Definition mult (A : Matrix) (B : list R) : list R :=
  map (fun i => foldl (fun acc k => radd acc (rmul (mat_get A i k) (nth k B r0)))
                      r0 (seq 0 (cl A)))
      (seq 0 (rw A)).

(** [v[k]] on a [std::vector<Matrix<double>>]; the vectors built by
    [setupMatrices] have two elements, and [k] is 0 or 1. *)
Definition matvec_at (v : list Matrix) (k : nat) : Matrix :=
  nth k v (mat_resize 0 0).

(** ** setupMatrices (lines 87-103) *)

(** Conversion of the [int] [N] to the [unsigned] parameter of [resize].
    [N] and the loop counters are C++ [int]s; a coefficient sequence long
    enough to overflow them could not have its [N*N] matrices allocated,
    so they are kept in [Z] without wrap-around. *)
Definition int_to_unsigned (n : Z) : Z := if n <? 0 then n + 2 ^ 32 else n.

Definition setupMatrices_body (coeffs : list R) (N : Z) (i j : nat)
  (Ms : Matrix * Matrix) : Matrix * Matrix :=
  let '(M0, M1) := Ms in
  let shift := 2 * Z.of_nat i - Z.of_nat j in
  let M0 :=
    if (0 <=? shift) && (shift <=? N)
    then mat_set M0 i j (rmul (of_int 2) (nth (Z.to_nat (2 * Z.of_nat i - Z.of_nat j)) coeffs r0))
    else M0 in
  let M1 :=
    if (-1 <=? shift) && (shift <=? N - 1)
    then mat_set M1 i j (rmul (of_int 2) (nth (Z.to_nat (2 * Z.of_nat i - Z.of_nat j + 1)) coeffs r0))
    else M1 in
  (M0, M1).

Definition setupMatrices_loops (coeffs : list R) (N : Z) (Ms : Matrix * Matrix)
  : Matrix * Matrix :=
  foldl (fun Ms i =>
           foldl (fun Ms j => setupMatrices_body coeffs N i j Ms) Ms (seq 0 (Z.to_nat N)))
        Ms (seq 0 (Z.to_nat N)).

Definition setupMatrices (coeffs : list R) : outcome (list Matrix) :=
  let N := Z.of_nat (length coeffs) - 1 in
  let M0 := mat_resize (Z.to_nat (int_to_unsigned N)) (Z.to_nat (int_to_unsigned N)) in
  let M1 := mat_resize (Z.to_nat (int_to_unsigned N)) (Z.to_nat (int_to_unsigned N)) in
  let '(M0, M1) := setupMatrices_loops coeffs N (M0, M1) in
  Returns [M0; M1].

(** ** getEigenvector (lines 129-160) *)

(** The arrays that [plumed_lapack_dgesdd] reads and overwrites. *)
Record LapackArrays : Type := mkArrays {
  arr_a : list R;
  arr_s : list R;
  arr_u : list R;
  arr_vt : list R;
  arr_work : list R
}.

(** The LAPACK routine is external: a function of the order of the matrix,
    of [lwork] and of the arrays, giving the arrays it leaves and the
    status [info]. *)
Variable plumed_lapack_dgesdd : nat -> Z -> LapackArrays -> LapackArrays * Z.

Definition transfer_matrix (A : Matrix) (eigenvalue : R) (N : nat) (da : list R) : list R :=
  foldl (fun da i =>
           foldl (fun da j =>
                    let da := <[(i * N + j)%nat := mat_get A j i]> da in
                    if (i =? j)%nat
                    then <[(i * N + j)%nat := rsub (nth (i * N + j) da r0) eigenvalue]> da
                    else da)
                 da (seq 0 N))
        da (seq 0 N).

(** [int N = A.ncols()] and the sizes [N*N], [N], [8*N] and [lwork] of the
    local arrays are kept in [nat] and [Z], and the arrays are always
    constructed: the definition follows the source for a matrix whose
    order and its square are values of [int] and for a work-space size
    that is not negative. Outside of these bounds the source does not
    reach its return statement (for the order 4294967295, [N] is -1 and
    the construction of [S] throws [std::length_error]); the properties
    below carry the bounds they need as hypotheses. *)
Definition getEigenvector (A : Matrix) (eigenvalue : R) : outcome (list R) :=
  let N := cl A in
  let da := replicate (N * N) r0 in
  let S := replicate N r0 in
  let U := replicate (N * N) r0 in
  let VT := replicate (N * N) r0 in
  let da := transfer_matrix A eigenvalue N da in
  (* the work-space query *)
  let lwork := -1 in
  let work := [r0] in
  let call := plumed_lapack_dgesdd N lwork (mkArrays da S U VT work) in
  let arrays := call.1 in
  let info := call.2 in
  let lwork := to_int (nth 0 (arr_work arrays) r0) in
  let work := resize (Z.to_nat lwork) r0 (arr_work arrays) in
  (* the decomposition *)
  let call :=
    plumed_lapack_dgesdd N lwork
      (mkArrays (arr_a arrays) (arr_s arrays) (arr_u arrays) (arr_vt arrays) work) in
  let arrays := call.1 in
  let info := call.2 in
  let eigenvector := map (fun i => nth (N - 1 + i * N) (arr_vt arrays) r0) (seq 0 N) in
  Returns eigenvector.



(** ** calcIntegerValues (lines 106-123) *)

(** [normfactor] after the loop of lines 114-116. The counter [i] is
    [unsigned], so [-i] is computed modulo [2^32] before its conversion to
    [double]. *)
Definition normfactor_sum (values : list R) (deriv : Z) : R :=
  foldl (fun normfactor i =>
           radd normfactor
                (rmul (nth i values r0)
                      (rpow (of_int (wrap32 (- Z.of_nat i))) (of_int deriv))))
        r0 (seq 1 (length values - 1)).

Definition calcIntegerValues (M : Matrix) (deriv : Z) : outcome (list R) :=
  let eigenvalue := rpow rhalf (of_int deriv) in
  values ← getEigenvector M eigenvalue;
  let normfactor := normfactor_sum values deriv in
  let normfactor := rdiv (of_int 1) normfactor in
  let values := map (fun value => rmul value normfactor) values in
  Returns values.

(** ** cascade (lines 163-212) *)

(** [m[k]] on a non-const map: the stored vector; an absent key is first
    inserted with an empty vector. *)
Definition map_index (m : gmap string (list R)) (k : string)
  : list R * gmap string (list R) :=
  match m !! k with
  | Some v => (v, m)
  | None => ([], <[k := []]> m)
  end.

(** [m.insert(pair(k, v))]: nothing changes when the key is present. *)
Definition map_insert_new (m : gmap string (list R)) (k : string) (v : list R)
  : gmap string (list R) :=
  match m !! k with
  | Some _ => m
  | None => <[k := v]> m
  end.

Record CascadeState : Type := mkCascade {
  scaling_map : gmap string (list R);
  wavelet_map : gmap string (list R);
  binary_vec : list string
}.

(** Lines 179-189 and 192: "fill the first two datasets by hand". *)
Definition cascade_seed (h_Matvec g_Matvec : list Matrix) (values_at_integers : list R)
  (do_wavelet : bool) : CascadeState :=
  let scaling_map : gmap string (list R) := ∅ in
  let wavelet_map : gmap string (list R) := ∅ in
  let scaling_map := <["0" := values_at_integers]> scaling_map in
  let temp_values := mult (matvec_at h_Matvec 1) values_at_integers in
  let scaling_map := <["1" := temp_values]> scaling_map in
  let '(scaling_map, wavelet_map) :=
    if do_wavelet then
      let temp_values := mult (matvec_at g_Matvec 0) values_at_integers in
      let wavelet_map := <["0" := temp_values]> wavelet_map in
      let temp_values := mult (matvec_at g_Matvec 1) values_at_integers in
      let scaling_map := <["1" := temp_values]> scaling_map in
      (scaling_map, wavelet_map)
    else (scaling_map, wavelet_map) in
  mkCascade scaling_map wavelet_map ["1"].

(** Lines 198-205: the body of the loop over [k], for one [binary]; the
    third component accumulates [new_binary_vec]. *)
Definition cascade_body (h_Matvec g_Matvec : list Matrix) (do_wavelet : bool)
  (binary : string) (st : CascadeState) (k : nat) : CascadeState :=
  let new_binary := pretty k +:+ binary in
  let '(value, scaling_map) := map_index (scaling_map st) binary in
  let temp_values := mult (matvec_at h_Matvec k) value in
  let scaling_map := map_insert_new scaling_map new_binary temp_values in
  let '(scaling_map, wavelet_map) :=
    if do_wavelet then
      let '(value, scaling_map) := map_index scaling_map binary in
      let temp_values := mult (matvec_at g_Matvec k) value in
      (scaling_map, map_insert_new (wavelet_map st) new_binary temp_values)
    else (scaling_map, wavelet_map st) in
  mkCascade scaling_map wavelet_map (binary_vec st ++ [new_binary]).

(** Lines 194-208: one pass of the loop over [i]. *)
Definition cascade_level (h_Matvec g_Matvec : list Matrix) (do_wavelet : bool)
  (st : CascadeState) : CascadeState :=
  foldl (fun st' binary =>
           foldl (cascade_body h_Matvec g_Matvec do_wavelet binary) st' (seq 0 2))
        (mkCascade (scaling_map st) (wavelet_map st) [])
        (binary_vec st).

(** The matrices are passed by reference and scaled in place, so the
    result carries the vectors [h_Matvec] and [g_Matvec] as the call
    leaves them. [bins_per_int] only sizes the hash tables. *)
Definition cascade (h_Matvec g_Matvec : list Matrix) (values_at_integers : list R)
  (recursion_number : nat) (bins_per_int : Z) (derivnum : Z) (do_wavelet : bool)
  : gmap string (list R) * list Matrix * list Matrix :=
  let h_Matvec :=
    if derivnum =? 0 then h_Matvec
    else map (fun M => mat_scale M (of_int 2)) h_Matvec in
  let g_Matvec :=
    if do_wavelet && negb (derivnum =? 0)
    then map (fun M => mat_scale M (of_int 2)) g_Matvec
    else g_Matvec in
  let st := cascade_seed h_Matvec g_Matvec values_at_integers do_wavelet in
  let st :=
    foldl (fun st _ => cascade_level h_Matvec g_Matvec do_wavelet st)
          st (seq 1 (recursion_number - 1)) in
  (if do_wavelet then wavelet_map st else scaling_map st, h_Matvec, g_Matvec).

(** ** fillGridFromMaps (lines 216-232) *)

(** Modelled from the spec: the Grid capability of section 6 is an
    external container with the mutator
    [setValueAndDerivatives(index, value, derivatives)]; [tools/Grid.h] is
    not among the sources. A grid is the number of bins it was built with
    and the calls of the mutator it received, in order. *)
Record Grid : Type := mkGrid {
  grid_name : string;
  grid_nbins : Z;
  grid_writes : list (Z * R * list R)
}.

(** Modelled from the spec: the mutator of [tools/Grid.h], recorded in
    the log of the grid. *)
Definition setValueAndDerivatives (grid : Grid) (index : Z) (value : R) (der : list R)
  : Grid :=
  mkGrid (grid_name grid) (grid_nbins grid) (grid_writes grid ++ [(index, value, der)]).

(** [bins_per_int >> length], undefined for a shift count that reaches the
    width of [unsigned]. *)
Definition shift_right (bins_per_int : Z) (length : nat) : outcome Z :=
  if (length <? 32)%nat then Returns (Z.shiftr bins_per_int (Z.of_nat length))
  else Undefined.

(** Lines 221 and 225. *)
Definition first_grid_element (bins_per_int : Z) (key : string) : outcome Z :=
  decimal ← stoi key;
  shifted ← shift_right bins_per_int (String.length key);
  Returns (wrap32 (decimal * shifted)).

(** Lines 219-231, for one element of the map. Dereferencing the end
    iterator of a key that [derivs_map] does not have is undefined, and
    so is [deriv_iter->second[i]] past the end of a derivative vector
    shorter than the value vector. *)
Definition fill_entry (bins_per_int : Z) (derivs_map : gmap string (list R))
  (grid : Grid) (value_iter : string * list R) : outcome Grid :=
  first ← first_grid_element bins_per_int value_iter.1;
  let deriv_iter := derivs_map !! value_iter.1 in
  for_each (fun grid i =>
              match deriv_iter with
              | Some second =>
                  if (i <? length second)%nat then
                    let deriv := [nth i second r0] in
                    Returns (setValueAndDerivatives grid
                               (wrap32 (first + wrap32 (bins_per_int * Z.of_nat i)))
                               (nth i value_iter.2 r0) deriv)
                  else Undefined
              | None => Undefined
              end)
           (seq 0 (length value_iter.2)) grid.

Definition fillGridFromMaps (grid : Grid) (values_map derivs_map : gmap string (list R))
  : outcome Grid :=
  let bins_per_int := wrap32 (Z.of_nat (size values_map)) in
  for_each (fill_entry bins_per_int derivs_map) (map_to_list values_map) grid.

(** ** setupGrid (lines 37-83) *)

(** The filter coefficient provider is external. *)
Variable getFilterCoefficients : Z -> bool -> outcome (list R).

(** Of the arguments of the Grid constructor, the name and the number of
    bins are kept. *)
Definition setupGrid (order gridsize : Z) (do_wavelet : bool) : outcome Grid :=
  dims ← setupDims order gridsize;
  h_coeffs ← getFilterCoefficients order true;
  h_Matvec ← setupMatrices h_coeffs;
  values_at_integers ← calcIntegerValues (matvec_at h_Matvec 0) 0;
  derivs_at_integers ← calcIntegerValues (matvec_at h_Matvec 0) 1;
  '(grid, g_Matvec) ←
    (if negb do_wavelet then
       Returns (mkGrid ("db" +:+ pretty order +:+ "_phi") (dims_gridsize dims) [], [])
     else
       g_coeffs ← getFilterCoefficients order false;
       g_Matvec ← setupMatrices g_coeffs;
       Returns (mkGrid ("db" +:+ pretty order +:+ "_psi") (dims_gridsize dims) [], g_Matvec));
  let '(values, h_Matvec, g_Matvec) :=
    cascade h_Matvec g_Matvec values_at_integers
            (dims_recursion_number dims) (dims_bins_per_int dims) 0 do_wavelet in
  let '(derivs, h_Matvec, g_Matvec) :=
    cascade h_Matvec g_Matvec derivs_at_integers
            (dims_recursion_number dims) (dims_bins_per_int dims) 1 do_wavelet in
  fillGridFromMaps grid values derivs.

End DbWaveletGrid.

Arguments Matrix R : clear implicits.
Arguments LapackArrays R : clear implicits.
Arguments CascadeState R : clear implicits.
Arguments Grid R : clear implicits.

(** ** The binary64 instance *)

Fixpoint float_of_pos (p : positive) : float :=
  match p with
  | xH => 1
  | xO p' => 2 * float_of_pos p'
  | xI p' => 2 * float_of_pos p' + 1
  end%float.

Definition float_of_Z (z : Z) : float :=
  match z with
  | Z0 => 0%float
  | Zpos p => float_of_pos p
  | Zneg p => (- float_of_pos p)%float
  end.

(** Truncation towards zero of a finite number. *)
Definition float_to_Z (x : float) : Z :=
  match Prim2SF x with
  | S754_finite s m e =>
      let v := if 0 <=? e then Zpos m * 2 ^ e else Z.shiftr (Zpos m) (- e) in
      if s then - v else v
  | _ => 0
  end.

(** [pow x y] for an exponent that is a natural number, by repeated
    multiplication; this is exact for the exponents 0 and 1, the only ones
    that [setupGrid] passes to [calcIntegerValues]. *)
Definition float_pow (x y : float) : float :=
  Z.iter (float_to_Z y) (fun acc => (acc * x)%float) 1%float.

#[global] Instance float_scalar : Scalar float := {|
  r0 := 0%float;
  rhalf := 0.5%float;
  radd := PrimFloat.add;
  rsub := PrimFloat.sub;
  rmul := PrimFloat.mul;
  rdiv := PrimFloat.div;
  of_int := float_of_Z;
  to_int := float_to_Z;
  rpow := float_pow
|}.

(** * Vocabulary of the statements *)

(** ** Addresses and cells *)

(** The loop of lines 195-207 maps the list of addresses of one length to
    the list of addresses one bit longer. *)
Definition prepend_bits (l : list string) : list string :=
  l ≫= (fun binary => [String "0" binary; String "1" binary]).

(** [binary_vec] after [n] passes of the loop over [i]. *)
Fixpoint level_keys (n : nat) : list string :=
  match n with
  | O => ["1"]
  | S n' => prepend_bits (level_keys n')
  end.

(** "0" and the addresses of the first [r] levels. *)
Definition all_keys (r : nat) : list string := "0" :: (seq 0 r ≫= level_keys).

(** A bit string whose last bit is 1. *)
Definition is_bit (c : ascii) : Prop := c = "0"%char \/ c = "1"%char.

Definition odd_address (s : string) : Prop :=
  Forall is_bit (String.list_ascii_of_string s) /\
  last (String.list_ascii_of_string s) = Some "1"%char.

(** [decimal * (bins_per_int >> length)] for [bins_per_int = 2^r], without
    the checks of [stoi] and of the shift. *)
Definition base_cell (r : nat) (key : string) : Z :=
  binary_prefix key 0 * Z.shiftr (2 ^ Z.of_nat r) (Z.of_nat (String.length key)).

(** "0" and the addresses of the levels 1 to [r - 1]: the keys that a
    wavelet pass inserts into the wavelet map. *)
Definition wavelet_keys (r : nat) : list string :=
  "0" :: (seq 1 (r - 1) ≫= level_keys).

(** The odd numbers below [2n] and the even ones. *)
Definition odds (n : Z) : list Z := (fun i => 2 * i + 1) <$> seqZ 0 n.
Definition evens (n : Z) : list Z := (fun i => 2 * i) <$> seqZ 0 n.

(** The indices of the calls of [setValueAndDerivatives], in order. *)
Definition written_cells {R : Type} (grid : Grid R) : list Z :=
  (grid_writes grid).*1.*1.

(** ** Matrices under construction, vectors and writes *)

(** Position [(i', j')] comes before [(i, j)] in the order of the loops. *)
Definition visited (i j i' j' : nat) : bool :=
  (i' <? i)%nat || ((i' =? i)%nat && (j' <? j)%nat).

Section Vocabulary.

Context {R : Type} `{Scalar R}.

(** A square matrix of order [n] with all its storage. *)
Definition square (n : nat) (A : Matrix R) : Prop :=
  rw A = n /\ cl A = n /\ length (data A) = (n * n)%nat.

(** The entries that the shift rule prescribes. *)
Definition M0_entry (h : list R) (N : Z) (i j : nat) : R :=
  if (0 <=? 2 * Z.of_nat i - Z.of_nat j) && (2 * Z.of_nat i - Z.of_nat j <=? N)
  then rmul (of_int 2) (nth (Z.to_nat (2 * Z.of_nat i - Z.of_nat j)) h r0)
  else r0.

Definition M1_entry (h : list R) (N : Z) (i j : nat) : R :=
  if (-1 <=? 2 * Z.of_nat i - Z.of_nat j) && (2 * Z.of_nat i - Z.of_nat j <=? N - 1)
  then rmul (of_int 2) (nth (Z.to_nat (2 * Z.of_nat i - Z.of_nat j + 1)) h r0)
  else r0.

(** The state of the two matrices when the loops reach position [(i, j)]. *)
Definition filled_upto (h : list R) (N : Z) (n i j : nat) (Ms : Matrix R * Matrix R) : Prop :=
  square n Ms.1 /\ square n Ms.2 /\
  forall i' j', (i' < n)%nat -> (j' < n)%nat ->
    mat_get Ms.1 i' j' = (if visited i j i' j' then M0_entry h N i' j' else r0) /\
    mat_get Ms.2 i' j' = (if visited i j i' j' then M1_entry h N i' j' else r0).

(** Every vector of the map has [n] components. *)
Definition vectors_of_length (n : nat) (m : gmap string (list R)) : Prop :=
  map_Forall (fun _ v => length v = n) m.

(** Every vector of the map, the two seeds apart, is the product of one
    of the two matrices with the vector stored at the address without its
    first bit. *)
Definition refined (h : list (Matrix R)) (m : gmap string (list R)) : Prop :=
  forall key v, m !! key = Some v ->
    key = "0" \/ key = "1" \/
    exists (k : nat) b u,
      (k < 2)%nat /\ key = pretty k +:+ b /\ m !! b = Some u /\
      v = mult (matvec_at h k) u.

(** Every vector of the map [wm], the seed apart, is the product of one of
    the two matrices with the vector that the map [sm] stores at the
    address without its first bit. *)
Definition refined_from (g : list (Matrix R)) (sm wm : gmap string (list R)) : Prop :=
  forall key v, wm !! key = Some v ->
    key = "0" \/
    exists (k : nat) b u,
      (k < 2)%nat /\ key = pretty k +:+ b /\ sm !! b = Some u /\
      v = mult (matvec_at g k) u.


End Vocabulary.

(** ** Stand-ins for the external routines, on binary64 numbers *)

(** A stand-in for the LAPACK routine: it leaves the given array [vt] and
    work-space size 1, and reports the given status. *)
Definition dgesdd_leaving (vt : list float) (info : Z)
  : nat -> Z -> LapackArrays float -> LapackArrays float * Z :=
  fun _ _ arrays =>
    (mkArrays (arr_a arrays) (arr_s arrays) (arr_u arrays) vt [1%float], info).

(** A stand-in for the coefficient provider: four taps for either filter. *)
Definition four_taps : Z -> bool -> outcome (list float) :=
  fun _ scaling =>
    Returns (if scaling then [1; 2; 3; 4]%float else [4; -3; 2; -1]%float).


Definition one_by_one (x : float) : Matrix float := mkMatrix 1 1 [x].

Definition two_by_two : Matrix float := mkMatrix 2 2 [1; 2; 3; 4]%float.

(** * Properties *)

(** ** Grid sizing *)

Lemma wrap32_small z : 0 <= z < 2 ^ 32 -> wrap32 z = z.
Proof. intros Hz. unfold wrap32. apply Z.mod_small. exact Hz. Qed.

Lemma pow2_pos (n : nat) : 0 < 2 ^ Z.of_nat n.
Proof. apply Z.pow_pos_nonneg; lia. Qed.

Lemma pow2_succ (n : nat) : 2 ^ Z.of_nat (S n) = 2 * 2 ^ Z.of_nat n.
Proof. rewrite Nat2Z.inj_succ, Z.pow_succ_r; lia. Qed.

Lemma pow2_le (a b : nat) : (a <= b)%nat -> 2 ^ Z.of_nat a <= 2 ^ Z.of_nat b.
Proof. intros Hab. apply Z.pow_le_mono_r; lia. Qed.

Lemma pow2_nat (n : nat) : Z.of_nat (2 ^ n) = 2 ^ Z.of_nat n.
Proof. rewrite Nat2Z.inj_pow. reflexivity. Qed.

Lemma shl1_pow n : (n < 32)%nat -> shl1 n = 2 ^ Z.of_nat n.
Proof.
  intros Hn. unfold shl1. rewrite Z.shiftl_1_l. apply wrap32_small.
  split; [apply Z.pow_nonneg; lia|].
  apply Z.pow_lt_mono_r; lia.
Qed.

(** The loop, started at [k], stops at the least [r >= k] whose product
    reaches [gridsize], provided that product fits in 32 bits. *)
Lemma recursion_loop_least fuel ms g k r :
  (k <= r)%nat -> (r < k + fuel)%nat ->
  0 < ms ->
  ms * 2 ^ Z.of_nat r < 2 ^ 32 ->
  g <= ms * 2 ^ Z.of_nat r ->
  (forall r', (k <= r')%nat -> (r' < r)%nat -> ms * 2 ^ Z.of_nat r' < g) ->
  recursion_loop fuel ms g k = Returns r.
Proof.
  revert k. induction fuel as [|fuel IH]; intros k Hkr Hfuel Hms Hfit Hge Hlt; [lia|].
  assert (Hr32 : (r < 32)%nat).
  { destruct (Nat.lt_ge_cases r 32) as [|Hbig]; [assumption|].
    assert (2 ^ 32 <= 2 ^ Z.of_nat r) by (apply (pow2_le 32 r); lia).
    nia. }
  simpl. rewrite shl1_pow by lia.
  assert (Hk : ms * 2 ^ Z.of_nat k <= ms * 2 ^ Z.of_nat r).
  { apply Z.mul_le_mono_nonneg_l; [lia | apply pow2_le; lia]. }
  rewrite wrap32_small by (pose proof (pow2_pos k); nia).
  destruct (Z.ltb_spec (ms * 2 ^ Z.of_nat k) g) as [Hlo|Hhi].
  - assert (k <> r) by (intros ->; lia).
    apply IH; try assumption; try lia.
    intros r' H1 H2. apply Hlt; lia.
  - destruct (Nat.eq_dec k r) as [->|Hne]; [reflexivity|].
    specialize (Hlt k ltac:(lia) ltac:(lia)). lia.
Qed.

(** Whatever the loop returns is a shift count below 32. *)
Lemma recursion_loop_bound fuel ms g k r :
  recursion_loop fuel ms g k = Returns r -> (k <= r < k + fuel)%nat.
Proof.
  revert k. induction fuel as [|fuel IH]; intros k; simpl; [discriminate|].
  destruct (_ <? _).
  - intros Hr. apply IH in Hr. lia.
  - intros [= <-]. lia.
Qed.

Lemma setupDims_bound order g dims :
  setupDims order g = Returns dims ->
  (dims_recursion_number dims < 32)%nat /\
  dims_bins_per_int dims = 2 ^ Z.of_nat (dims_recursion_number dims).
Proof.
  unfold setupDims. intros Hd.
  destruct (recursion_loop 32 _ g 0) as [r| |] eqn:Hloop; simpl in Hd; try discriminate.
  apply recursion_loop_bound in Hloop.
  injection Hd as <-. simpl. split; [lia|]. apply shl1_pow. lia.
Qed.

(** C4, as amended: when the smallest [r] with
    [maxsupport * 2^r >= gridsize] (for [maxsupport = 2*order - 1],
    [order >= 1], requested [gridsize >= 1]) keeps [maxsupport * 2^r]
    below [2^32], the build chooses [recursion_number = r],
    [bins_per_int = 2^r] and the actual grid size [maxsupport * 2^r]. *)
Theorem setupDims_smallest (order gridsize : Z) (r : nat) :
  1 <= order -> 1 <= gridsize ->
  gridsize <= (2 * order - 1) * 2 ^ Z.of_nat r ->
  (forall r', (r' < r)%nat -> (2 * order - 1) * 2 ^ Z.of_nat r' < gridsize) ->
  (2 * order - 1) * 2 ^ Z.of_nat r < 2 ^ 32 ->
  setupDims order gridsize =
    Returns (mkDims r (2 ^ Z.of_nat r) ((2 * order - 1) * 2 ^ Z.of_nat r)).
Proof.
  intros Ho Hg Hge Hlt Hfit.
  pose proof (pow2_pos r) as Hp.
  assert (Hms : 2 * order - 1 < 2 ^ 32) by nia.
  assert (Hr32 : (r < 32)%nat).
  { destruct (Nat.lt_ge_cases r 32) as [|Hbig]; [assumption|].
    assert (2 ^ 32 <= 2 ^ Z.of_nat r) by (apply (pow2_le 32 r); lia).
    nia. }
  unfold setupDims.
  replace (wrap32 (wrap32 (order * 2) - 1)) with (2 * order - 1).
  2:{ unfold wrap32. rewrite Zminus_mod_idemp_l.
      rewrite Z.mod_small by lia. lia. }
  rewrite (recursion_loop_least 32 (2 * order - 1) gridsize 0 r); try lia.
  - simpl. rewrite shl1_pow by lia. rewrite wrap32_small by lia. reflexivity.
  - intros r' _ Hr'. apply Hlt. exact Hr'.
Qed.

(** The example of the design document: order 2, requested size 10. *)
Lemma setupDims_smallest_witness :
  setupDims 2 10 = Returns (mkDims 2 4 12).
Proof.
  apply (setupDims_smallest 2 10 2).
  - lia.
  - lia.
  - cbn. lia.
  - intros r' Hr'. destruct r' as [|[|r']]; [cbn; lia | cbn; lia | lia].
  - cbn. lia.
Defined.

(** C4 as stated fails on 32-bit wrap-around: for order 1610612736
    ([maxsupport = 3221225471]) and requested size 3221225472 the
    exponent 1 already satisfies [maxsupport * 2^1 >= gridsize], but the
    product wraps to 2147483646 and the loop goes on to 2; the actual
    grid size is then [maxsupport * 4] modulo [2^32]. *)
Lemma setupDims_wraps_counterexample :
  setupDims 1610612736 3221225472 = Returns (mkDims 2 4 4294967292) /\
  3221225472 <= (2 * 1610612736 - 1) * 2 ^ 1 /\
  4294967292 <> (2 * 1610612736 - 1) * 4.
Proof. split; [vm_compute; reflexivity | split; lia]. Qed.

(** For a small order and a request above [maxsupport * 2^30] the loop
    runs into [1 << 32]: no recursion number is chosen. *)
Lemma setupDims_shift_overflow_example : setupDims 2 3221225473 = Undefined.
Proof. vm_compute. reflexivity. Qed.

(** ** The dilation matrices *)

Section SetupMatrices.

Context {R : Type} `{Scalar R}.

Lemma square_resize n : square (R := R) n (mat_resize n n).
Proof. unfold square, mat_resize; simpl. rewrite length_replicate. auto. Qed.

Lemma mat_get_resize n i j : mat_get (mat_resize n n) i j = r0.
Proof.
  unfold mat_get, mat_resize; simpl. rewrite nth_lookup.
  destruct (replicate (n * n) r0 !! (j + i * n)%nat) as [x|] eqn:Hx; [|reflexivity].
  apply lookup_replicate in Hx as [-> _]. reflexivity.
Qed.

Lemma square_set n (A : Matrix R) i j v : square n A -> square n (mat_set A i j v).
Proof.
  intros (Hr & Hc & Hl). unfold square, mat_set; simpl.
  rewrite length_insert. auto.
Qed.

Lemma cell_index_inj (n i j i' j' : nat) :
  (j < n)%nat -> (j' < n)%nat -> (j + i * n = j' + i' * n)%nat -> i = i' /\ j = j'.
Proof.
  intros Hj Hj' Heq.
  assert (Hi : i = i').
  { destruct (Nat.lt_trichotomy i i') as [Hlt|[Hi|Hgt]]; [|exact Hi|].
    - assert (S i * n <= i' * n)%nat by (apply Nat.mul_le_mono_r; lia).
      simpl in *. lia.
    - assert (S i' * n <= i * n)%nat by (apply Nat.mul_le_mono_r; lia).
      simpl in *. lia. }
  subst i'. split; [reflexivity | lia].
Qed.

Lemma mat_get_set_same n (A : Matrix R) i j v :
  square n A -> (i < n)%nat -> (j < n)%nat -> mat_get (mat_set A i j v) i j = v.
Proof.
  intros (Hr & Hc & Hl) Hi Hj. unfold mat_get, mat_set; simpl.
  apply nth_lookup_Some. apply list_lookup_insert_eq. rewrite Hl, Hc.
  assert (S i * n <= n * n)%nat by (apply Nat.mul_le_mono_r; lia).
  simpl in *. lia.
Qed.

Lemma mat_get_set_other n (A : Matrix R) i j i' j' v :
  square n A -> (j < n)%nat -> (j' < n)%nat -> (i, j) <> (i', j') ->
  mat_get (mat_set A i j v) i' j' = mat_get A i' j'.
Proof.
  intros (Hr & Hc & Hl) Hj Hj' Hne. unfold mat_get, mat_set; simpl.
  rewrite !nth_lookup, list_lookup_insert_ne; [reflexivity|].
  rewrite Hc. intros Heq. apply cell_index_inj in Heq as [-> ->]; [|assumption..].
  apply Hne. reflexivity.
Qed.

Lemma visited_step i j i' j' :
  visited i (S j) i' j' = visited i j i' j' || ((i' =? i)%nat && (j' =? j)%nat).
Proof.
  unfold visited.
  destruct (Nat.ltb_spec i' i), (Nat.eqb_spec i' i), (Nat.ltb_spec j' (S j)),
    (Nat.ltb_spec j' j), (Nat.eqb_spec j' j); simpl; try reflexivity; lia.
Qed.

Lemma visited_self i j : visited i j i j = false.
Proof.
  unfold visited. rewrite !Nat.ltb_irrefl, andb_false_r. reflexivity.
Qed.

Lemma setupMatrices_body_filled (h : list R) N n i j Ms :
  (i < n)%nat -> (j < n)%nat ->
  filled_upto h N n i j Ms ->
  filled_upto h N n i (S j) (setupMatrices_body h N i j Ms).
Proof.
  intros Hi Hj (Hs0 & Hs1 & Hget). destruct Ms as [M0 M1]. simpl in *.
  unfold setupMatrices_body.
  split; [|split].
  - simpl. destruct (_ && _); [apply square_set|]; assumption.
  - simpl. destruct (_ && _); [apply square_set|]; assumption.
  - intros i' j' Hi' Hj'. simpl.
    destruct (Hget i' j' Hi' Hj') as [H0 H1].
    rewrite visited_step.
    destruct (decide ((i, j) = (i', j'))) as [[= <- <-]|Hne].
    + rewrite Nat.eqb_refl, Nat.eqb_refl, orb_true_r.
      rewrite visited_self in H0, H1.
      unfold M0_entry, M1_entry. split.
      * destruct (_ && _); [apply (mat_get_set_same n); assumption | exact H0].
      * destruct ((-1 <=? _) && _); [apply (mat_get_set_same n); assumption | exact H1].
    + assert (Hno : ((i' =? i)%nat && (j' =? j)%nat) = false).
      { destruct (Nat.eqb_spec i' i), (Nat.eqb_spec j' j); simpl; try reflexivity.
        subst. contradiction Hne. reflexivity. }
      rewrite Hno, orb_false_r. split.
      * destruct ((0 <=? _) && _);
          [rewrite (mat_get_set_other n) by assumption|]; exact H0.
      * destruct ((-1 <=? _) && _);
          [rewrite (mat_get_set_other n) by assumption|]; exact H1.
Qed.

Lemma setupMatrices_row_filled (h : list R) N n i Ms k :
  (i < n)%nat -> (k <= n)%nat ->
  filled_upto h N n i 0 Ms ->
  filled_upto h N n i k
    (foldl (fun Ms j => setupMatrices_body h N i j Ms) Ms (seq 0 k)).
Proof.
  intros Hi Hk Hinit. induction k as [|k IH]; [exact Hinit|].
  rewrite seq_S, foldl_snoc. simpl.
  apply setupMatrices_body_filled; [lia | lia | apply IH; lia].
Qed.

Lemma filled_upto_next_row (h : list R) N n i Ms :
  filled_upto h N n i n Ms -> filled_upto h N n (S i) 0 Ms.
Proof.
  intros (Hs0 & Hs1 & Hget). split; [assumption|]. split; [assumption|].
  intros i' j' Hi' Hj'. destruct (Hget i' j' Hi' Hj') as [H0 H1].
  assert (Hv : visited (S i) 0 i' j' = visited i n i' j').
  { unfold visited.
    destruct (Nat.ltb_spec i' (S i)), (Nat.ltb_spec i' i), (Nat.eqb_spec i' (S i)),
      (Nat.eqb_spec i' i), (Nat.ltb_spec j' 0), (Nat.ltb_spec j' n);
      simpl; try reflexivity; lia. }
  rewrite Hv. auto.
Qed.

Lemma setupMatrices_rows_filled (h : list R) N n Ms k :
  (k <= n)%nat ->
  filled_upto h N n 0 0 Ms ->
  filled_upto h N n k 0
    (foldl (fun Ms i => foldl (fun Ms j => setupMatrices_body h N i j Ms) Ms (seq 0 n))
           Ms (seq 0 k)).
Proof.
  intros Hk Hinit. induction k as [|k IH]; [exact Hinit|].
  rewrite seq_S, foldl_snoc. simpl.
  apply filled_upto_next_row.
  apply setupMatrices_row_filled; [lia | lia | apply IH; lia].
Qed.

(** What [setupMatrices] returns for a non-empty sequence of any length. *)
Lemma setupMatrices_spec (h : list R) :
  (1 <= length h)%nat ->
  exists M0 M1,
    setupMatrices h = Returns [M0; M1] /\
    square (length h - 1) M0 /\ square (length h - 1) M1 /\
    forall i j, (i < length h - 1)%nat -> (j < length h - 1)%nat ->
      mat_get M0 i j = M0_entry h (Z.of_nat (length h) - 1) i j /\
      mat_get M1 i j = M1_entry h (Z.of_nat (length h) - 1) i j.
Proof.
  intros Hlen. unfold setupMatrices, setupMatrices_loops.
  set (N := Z.of_nat (length h) - 1).
  assert (Hu : Z.to_nat (int_to_unsigned N) = (length h - 1)%nat).
  { unfold int_to_unsigned. destruct (Z.ltb_spec N 0); lia. }
  assert (Hn : Z.to_nat N = (length h - 1)%nat) by lia.
  rewrite Hu, Hn. set (n := (length h - 1)%nat).
  pose proof (setupMatrices_rows_filled h N n (mat_resize n n, mat_resize n n) n
                (Nat.le_refl n)) as Hfill.
  destruct (foldl _ _ (seq 0 n)) as [M0 M1].
  exists M0, M1. split; [reflexivity|].
  destruct Hfill as (Hs0 & Hs1 & Hget).
  { split; [apply square_resize|]. split; [apply square_resize|].
    intros i' j' _ _. simpl. rewrite !mat_get_resize.
    unfold visited. simpl. rewrite andb_false_r. auto. }
  split; [exact Hs0|]. split; [exact Hs1|].
  intros i j Hi Hj. destruct (Hget i j Hi Hj) as [H0 H1].
  assert (Hv : visited n 0 i j = true).
  { unfold visited. destruct (Nat.ltb_spec i n); [reflexivity | lia]. }
  rewrite Hv in H0, H1. auto.
Qed.

(** C5: for a coefficient sequence [h] of even length at least 2 and
    [N = len(h) - 1], [setupMatrices] returns two [N x N] matrices with,
    for [i, j < N] and [shift = 2i - j]: [M0[i][j] = 2*h[shift]] when
    [0 <= shift <= N] and 0 otherwise, and [M1[i][j] = 2*h[shift+1]] when
    [-1 <= shift <= N-1] and 0 otherwise. *)
Theorem setupMatrices_entries (h : list R) :
  Nat.Even (length h) -> (2 <= length h)%nat ->
  exists M0 M1,
    setupMatrices h = Returns [M0; M1] /\
    rw M0 = (length h - 1)%nat /\ cl M0 = (length h - 1)%nat /\
    rw M1 = (length h - 1)%nat /\ cl M1 = (length h - 1)%nat /\
    forall i j, (i < length h - 1)%nat -> (j < length h - 1)%nat ->
      mat_get M0 i j =
        (if (0 <=? 2 * Z.of_nat i - Z.of_nat j)
            && (2 * Z.of_nat i - Z.of_nat j <=? Z.of_nat (length h) - 1)
         then rmul (of_int 2) (nth (Z.to_nat (2 * Z.of_nat i - Z.of_nat j)) h r0)
         else r0) /\
      mat_get M1 i j =
        (if (-1 <=? 2 * Z.of_nat i - Z.of_nat j)
            && (2 * Z.of_nat i - Z.of_nat j <=? Z.of_nat (length h) - 1 - 1)
         then rmul (of_int 2) (nth (Z.to_nat (2 * Z.of_nat i - Z.of_nat j + 1)) h r0)
         else r0).
Proof.
  intros _ Hlen.
  destruct (setupMatrices_spec h) as (M0 & M1 & Hret & Hs0 & Hs1 & Hget); [lia|].
  exists M0, M1. split; [exact Hret|].
  destruct Hs0 as (? & ? & _), Hs1 as (? & ? & _).
  repeat (split; [assumption|]).
  exact Hget.
Qed.

(** C8, as amended: [setupMatrices] checks nothing about its argument and
    raises no configuration error: for every non-empty sequence, of odd
    or even length [n], it returns two square matrices of order [n - 1]
    filled by the shift rule. *)
Theorem setupMatrices_no_validation (h : list R) :
  h <> [] ->
  exists M0 M1,
    setupMatrices h = Returns [M0; M1] /\
    square (length h - 1) M0 /\ square (length h - 1) M1 /\
    forall i j, (i < length h - 1)%nat -> (j < length h - 1)%nat ->
      mat_get M0 i j = M0_entry h (Z.of_nat (length h) - 1) i j /\
      mat_get M1 i j = M1_entry h (Z.of_nat (length h) - 1) i j.
Proof.
  intros Hne. apply setupMatrices_spec.
  destruct h; [contradiction | simpl; lia].
Qed.

End SetupMatrices.

(** C5 on the taps 1, 2, 3, 4. *)
Lemma setupMatrices_entries_witness :
  exists M0 M1 : Matrix float,
    setupMatrices [1; 2; 3; 4]%float = Returns [M0; M1] /\
    rw M0 = 3%nat /\ cl M0 = 3%nat /\ rw M1 = 3%nat /\ cl M1 = 3%nat /\
    mat_get M0 1 0 = 6%float /\ mat_get M0 2 0 = 0%float /\
    mat_get M1 0 1 = 2%float /\ mat_get M1 2 2 = 8%float.
Proof.
  destruct (setupMatrices_entries [1; 2; 3; 4]%float) as
    (M0 & M1 & Hret & Hr0 & Hc0 & Hr1 & Hc1 & Hget).
  - exists 2%nat. reflexivity.
  - simpl. lia.
  - exists M0, M1. repeat (split; [assumption|]).
    destruct (Hget 1%nat 0%nat) as [H10 _]; [simpl; lia..|].
    destruct (Hget 2%nat 0%nat) as [H20 _]; [simpl; lia..|].
    destruct (Hget 0%nat 1%nat) as [_ H01]; [simpl; lia..|].
    destruct (Hget 2%nat 2%nat) as [_ H22]; [simpl; lia..|].
    repeat split; assumption.
Defined.

(** C8 as stated fails: a sequence of odd length 3 gives two matrices. *)
Lemma setupMatrices_odd_counterexample :
  Nat.Odd (length [1; 2; 3]%float) /\
  setupMatrices [1; 2; 3]%float =
    Returns [mkMatrix 2 2 [2; 0; 6; 4]%float; mkMatrix 2 2 [4; 2; 0; 6]%float] /\
  setupMatrices [1; 2; 3]%float <> Throws ConfigurationError.
Proof.
  split; [exists 1%nat; reflexivity|].
  split; [vm_compute; reflexivity | discriminate].
Qed.

(** C8, as amended, on the three taps 1, 2, 3. *)
Lemma setupMatrices_no_validation_witness :
  exists M0 M1 : Matrix float,
    setupMatrices [1; 2; 3]%float = Returns [M0; M1] /\
    square 2 M0 /\ square 2 M1 /\
    forall i j, (i < 2)%nat -> (j < 2)%nat ->
      mat_get M0 i j = M0_entry [1; 2; 3]%float 2 i j /\
      mat_get M1 i j = M1_entry [1; 2; 3]%float 2 i j.
Proof.
  apply (setupMatrices_no_validation [1; 2; 3]%float). discriminate.
Defined.

(** ** The eigenvector, its normalisation and the transfer matrices *)

Lemma outcome_bind_returns {A B : Type} (a : A) (f : A -> outcome B) :
  Returns a ≫= f = f a.
Proof. reflexivity. Qed.

Section Pipeline.

Context {R : Type} `{Scalar R}.





(** C9, as amended: [cascade] scales the matrices it is given in place.
    After a call with [derivnum <> 0] the vector [h_Matvec] of the caller
    holds every matrix multiplied by 2, and so does [g_Matvec] when
    [do_wavelet] is set; a call with [derivnum = 0] leaves both as they
    were; and the map of a call is the one that a call with
    [derivnum = 0] computes from the matrices as they are left.
    [setupGrid] runs the value pass first: the value map of a build is
    computed from the matrices that [setupMatrices] returned, and the
    derivative map from these matrices multiplied by 2, once. *)
Theorem cascade_scales_in_place
  (dgesdd : nat -> Z -> LapackArrays R -> LapackArrays R * Z)
  (getFilterCoefficients : Z -> bool -> outcome (list R))
  (order gridsize : Z) (do_wavelet : bool) (dims : GridDims)
  (h_coeffs : list R) (h_Matvec g_Matvec : list (Matrix R))
  (values_at_integers derivs_at_integers : list R) :
  setupDims order gridsize = Returns dims ->
  getFilterCoefficients order true = Returns h_coeffs ->
  setupMatrices h_coeffs = Returns h_Matvec ->
  calcIntegerValues dgesdd (matvec_at h_Matvec 0) 0 = Returns values_at_integers ->
  calcIntegerValues dgesdd (matvec_at h_Matvec 0) 1 = Returns derivs_at_integers ->
  (if do_wavelet
   then exists g_coeffs,
          getFilterCoefficients order false = Returns g_coeffs /\
          setupMatrices g_coeffs = Returns g_Matvec
   else g_Matvec = []) ->
  (forall (h g : list (Matrix R)) (seed : list R) (r : nat) (bins derivnum : Z)
          (w : bool),
     (cascade h g seed r bins derivnum w).1.2 =
       (if derivnum =? 0 then h
        else map (fun M => mat_scale M (of_int 2)) h) /\
     (cascade h g seed r bins derivnum w).2 =
       (if w && negb (derivnum =? 0)
        then map (fun M => mat_scale M (of_int 2)) g
        else g) /\
     (cascade h g seed r bins derivnum w).1.1 =
       (cascade (cascade h g seed r bins derivnum w).1.2
                (cascade h g seed r bins derivnum w).2 seed r bins 0 w).1.1) /\
  setupGrid dgesdd getFilterCoefficients order gridsize do_wavelet =
    fillGridFromMaps
      (mkGrid ("db" +:+ pretty order +:+ (if do_wavelet then "_psi" else "_phi"))
              (dims_gridsize dims) [])
      (cascade h_Matvec g_Matvec values_at_integers
               (dims_recursion_number dims) (dims_bins_per_int dims) 0 do_wavelet).1.1
      (cascade (map (fun M => mat_scale M (of_int 2)) h_Matvec)
               (map (fun M => mat_scale M (of_int 2)) g_Matvec)
               derivs_at_integers
               (dims_recursion_number dims) (dims_bins_per_int dims) 0 do_wavelet).1.1.
Proof.
  intros Hdims Hh HM Hcalc0 Hcalc1 Hg. split.
  - intros h g seed r bins derivnum w. unfold cascade. simpl.
    destruct w, (derivnum =? 0); repeat split; reflexivity.
  - unfold setupGrid.
    rewrite Hdims, outcome_bind_returns. cbv beta.
    rewrite Hh, outcome_bind_returns. cbv beta.
    rewrite HM, outcome_bind_returns. cbv beta.
    rewrite Hcalc0, outcome_bind_returns. cbv beta.
    rewrite Hcalc1, outcome_bind_returns. cbv beta.
    destruct do_wavelet.
    + destruct Hg as (g_coeffs & Hg & HG). cbn [negb].
      rewrite Hg, outcome_bind_returns. cbv beta.
      rewrite HG, !outcome_bind_returns. cbv beta iota.
      unfold cascade. reflexivity.
    + subst g_Matvec. cbn [negb]. rewrite outcome_bind_returns. cbv beta iota.
      unfold cascade. reflexivity.
Qed.

(** Every element of a scaled matrix is the old one times the factor. *)
Lemma mat_get_scale (A : Matrix R) v i j :
  (j + i * cl A < length (data A))%nat ->
  mat_get (mat_scale A v) i j = rmul (mat_get A i j) v.
Proof.
  intros Hin. unfold mat_get, mat_scale; simpl.
  rewrite !nth_lookup, list_lookup_fmap.
  destruct (data A !! (j + i * cl A)%nat) as [x|] eqn:Hx; [reflexivity|].
  apply lookup_ge_None in Hx. lia.
Qed.

(** C2, the seeding as the code performs it when a wavelet pass is
    requested: the scaling map holds the seed at "0", but at "1" it holds
    [G1 * seed] (line 188 stores into [scaling_map], overwriting
    [M1 * seed]); the wavelet map holds [G0 * seed] at "0" and nothing at
    "1". *)
Theorem cascade_seed_wavelet (h_Matvec g_Matvec : list (Matrix R)) (seed : list R) :
  scaling_map (cascade_seed h_Matvec g_Matvec seed true) !! "0" = Some seed /\
  scaling_map (cascade_seed h_Matvec g_Matvec seed true) !! "1" =
    Some (mult (matvec_at g_Matvec 1) seed) /\
  wavelet_map (cascade_seed h_Matvec g_Matvec seed true) !! "0" =
    Some (mult (matvec_at g_Matvec 0) seed) /\
  wavelet_map (cascade_seed h_Matvec g_Matvec seed true) !! "1" = None.
Proof.
  unfold cascade_seed. simpl.
  split; [|split; [|split]].
  - rewrite !lookup_insert_ne by discriminate. apply lookup_insert_eq.
  - apply lookup_insert_eq.
  - apply lookup_insert_eq.
  - rewrite lookup_insert_ne by discriminate. apply lookup_empty.
Qed.

(** One step of the loop in a wavelet pass: the child address [k ++ binary]
    receives [M_k * value] in the scaling map and [G_k * value] in the
    wavelet map, [value] being the scaling value of [binary]: the wavelet
    matrices are applied to scaling values only. *)
Lemma cascade_body_wavelet_values (h_Matvec g_Matvec : list (Matrix R))
  (binary : string) (st : CascadeState R) (k : nat) (value : list R) :
  (k < 2)%nat ->
  scaling_map st !! binary = Some value ->
  scaling_map st !! (pretty k +:+ binary) = None ->
  wavelet_map st !! (pretty k +:+ binary) = None ->
  scaling_map (cascade_body h_Matvec g_Matvec true binary st k) !! (pretty k +:+ binary)
    = Some (mult (matvec_at h_Matvec k) value) /\
  wavelet_map (cascade_body h_Matvec g_Matvec true binary st k) !! (pretty k +:+ binary)
    = Some (mult (matvec_at g_Matvec k) value).
Proof.
  intros Hk Hbin Hnew Hwnew.
  assert (Hne : pretty k +:+ binary <> binary).
  { intros Heq. apply (f_equal String.length) in Heq.
    destruct k as [|[|k]]; [| |lia].
    - change (pretty 0%nat +:+ binary) with (String "0" binary) in Heq.
      simpl in Heq. lia.
    - change (pretty 1%nat +:+ binary) with (String "1" binary) in Heq.
      simpl in Heq. lia. }
  assert (Hins : forall v, map_insert_new (scaling_map st) (pretty k +:+ binary) v =
                           <[pretty k +:+ binary := v]> (scaling_map st))
    by (intros v; unfold map_insert_new; rewrite Hnew; reflexivity).
  assert (Hwins : forall v, map_insert_new (wavelet_map st) (pretty k +:+ binary) v =
                            <[pretty k +:+ binary := v]> (wavelet_map st))
    by (intros v; unfold map_insert_new; rewrite Hwnew; reflexivity).
  unfold cascade_body, map_index. rewrite Hbin. simpl.
  rewrite Hins, lookup_insert_ne by exact Hne. rewrite Hbin. simpl.
  rewrite Hwins.
  split; apply lookup_insert_eq.
Qed.

(** Without a wavelet pass the seeding is the one of the design. *)
Lemma cascade_seed_scaling (h_Matvec g_Matvec : list (Matrix R)) (seed : list R) :
  scaling_map (cascade_seed h_Matvec g_Matvec seed false) !! "0" = Some seed /\
  scaling_map (cascade_seed h_Matvec g_Matvec seed false) !! "1" =
    Some (mult (matvec_at h_Matvec 1) seed).
Proof.
  unfold cascade_seed. simpl. split.
  - rewrite lookup_insert_ne by discriminate. apply lookup_insert_eq.
  - apply lookup_insert_eq.
Qed.

End Pipeline.




(** The denominator of a derivative pass: the counter is unsigned, so the
    term of index 1 is weighted by [2^32 - 1], not by [-1]. *)
Lemma normfactor_sum_unsigned_example :
  normfactor_sum [0; 1]%float 1 = 4294967295%float.
Proof. vm_compute. reflexivity. Qed.

(** C9 as stated fails: after a derivative pass the matrices of the
    caller are twice what they were. *)
Lemma cascade_mutates_counterexample :
  (cascade [one_by_one 1; one_by_one 3] [] [1%float] 2 4 1 false).1.2
    = [one_by_one 2; one_by_one 6] /\
  [one_by_one 2; one_by_one 6] <> [one_by_one 1; one_by_one 3].
Proof. split; [vm_compute; reflexivity | discriminate]. Qed.

(** C9, as amended, on the wavelet build of order 2 with requested size
    10. *)
Lemma cascade_scales_in_place_witness :
  exists (h_Matvec g_Matvec : list (Matrix float))
         (values_at_integers derivs_at_integers : list float),
    (forall (h g : list (Matrix float)) (seed : list float) (r : nat)
            (bins derivnum : Z) (w : bool),
       (cascade h g seed r bins derivnum w).1.2 =
         (if derivnum =? 0 then h
          else map (fun M => mat_scale M (of_int 2)) h) /\
       (cascade h g seed r bins derivnum w).2 =
         (if w && negb (derivnum =? 0)
          then map (fun M => mat_scale M (of_int 2)) g
          else g) /\
       (cascade h g seed r bins derivnum w).1.1 =
         (cascade (cascade h g seed r bins derivnum w).1.2
                  (cascade h g seed r bins derivnum w).2 seed r bins 0 w).1.1) /\
    setupGrid (dgesdd_leaving [0; 0; 1; 0; 0; 2; 0; 0; 3]%float 0) four_taps 2 10 true =
      fillGridFromMaps
        (mkGrid ("db" +:+ pretty 2 +:+ "_psi") (dims_gridsize (mkDims 2 4 12)) [])
        (cascade h_Matvec g_Matvec values_at_integers
                 (dims_recursion_number (mkDims 2 4 12))
                 (dims_bins_per_int (mkDims 2 4 12)) 0 true).1.1
        (cascade (map (fun M => mat_scale M (of_int 2)) h_Matvec)
                 (map (fun M => mat_scale M (of_int 2)) g_Matvec)
                 derivs_at_integers
                 (dims_recursion_number (mkDims 2 4 12))
                 (dims_bins_per_int (mkDims 2 4 12)) 0 true).1.1.
Proof.
  pose (Hm := match setupMatrices [1; 2; 3; 4]%float with
              | Returns Ms => Ms | _ => [] end).
  pose (Gm := match setupMatrices [4; -3; 2; -1]%float with
              | Returns Ms => Ms | _ => [] end).
  pose (vs := match calcIntegerValues
                      (dgesdd_leaving [0; 0; 1; 0; 0; 2; 0; 0; 3]%float 0)
                      (matvec_at Hm 0) 0 with
              | Returns v => v | _ => [] end).
  pose (ds := match calcIntegerValues
                      (dgesdd_leaving [0; 0; 1; 0; 0; 2; 0; 0; 3]%float 0)
                      (matvec_at Hm 0) 1 with
              | Returns v => v | _ => [] end).
  exists Hm, Gm, vs, ds.
  apply (cascade_scales_in_place
           (dgesdd_leaving [0; 0; 1; 0; 0; 2; 0; 0; 3]%float 0) four_taps
           2 10 true (mkDims 2 4 12) [1; 2; 3; 4]%float Hm Gm vs ds).
  - reflexivity.
  - reflexivity.
  - vm_compute. reflexivity.
  - vm_compute. reflexivity.
  - vm_compute. reflexivity.
  - exists [4; -3; 2; -1]%float. split; [reflexivity | vm_compute; reflexivity].
Defined.

(** C2 on one-by-one matrices [M0 = 1], [M1 = 3], [G0 = 5], [G1 = 7] and
    the seed [1]: after the seeding the scaling map holds 7 at "1", not 3,
    and the wavelet map has no entry at "1". *)
Lemma cascade_seed_wavelet_example :
  let st := cascade_seed [one_by_one 1; one_by_one 3] [one_by_one 5; one_by_one 7]
                         [1%float] true in
  scaling_map st !! "1" = Some [7%float] /\
  wavelet_map st !! "0" = Some [5%float] /\
  wavelet_map st !! "1" = None.
Proof. vm_compute. repeat split. Qed.

(** ** The addresses produced by the cascade *)

Section CascadeKeys.

Context {R : Type} `{Scalar R}.

Lemma map_index_dom (m : gmap string (list R)) k :
  dom (map_index m k).2 = {[k]} ∪ dom m.
Proof.
  unfold map_index. destruct (m !! k) as [v|] eqn:Hk; simpl.
  - apply elem_of_dom_2 in Hk. set_solver.
  - apply dom_insert_L.
Qed.

Lemma map_insert_new_dom (m : gmap string (list R)) k v :
  dom (map_insert_new m k v) = {[k]} ∪ dom m.
Proof.
  unfold map_insert_new. destruct (m !! k) as [w|] eqn:Hk.
  - apply elem_of_dom_2 in Hk. set_solver.
  - apply dom_insert_L.
Qed.

Lemma cascade_body_keys h g w binary (st : CascadeState R) k :
  binary_vec (cascade_body h g w binary st k) = binary_vec st ++ [pretty k +:+ binary] /\
  dom (scaling_map (cascade_body h g w binary st k)) =
    {[pretty k +:+ binary]} ∪ ({[binary]} ∪ dom (scaling_map st)) /\
  dom (wavelet_map (cascade_body h g w binary st k)) =
    (if w then {[pretty k +:+ binary]} ∪ dom (wavelet_map st) else dom (wavelet_map st)).
Proof.
  unfold cascade_body.
  pose proof (map_index_dom (scaling_map st) binary) as Hd1.
  destruct (map_index (scaling_map st) binary) as [value sm1]. simpl in Hd1.
  destruct w.
  - pose proof (map_index_dom
                  (map_insert_new sm1 (pretty k +:+ binary) (mult (matvec_at h k) value))
                  binary) as Hd2.
    destruct (map_index _ binary) as [value2 sm2]. simpl in Hd2. simpl.
    split; [reflexivity|]. split.
    + rewrite Hd2, map_insert_new_dom, Hd1. set_solver.
    + apply map_insert_new_dom.
  - simpl. split; [reflexivity|]. split; [|reflexivity].
    rewrite map_insert_new_dom, Hd1. reflexivity.
Qed.

Lemma cascade_pair_keys h g w binary (st : CascadeState R) :
  let st' := foldl (cascade_body h g w binary) st (seq 0 2) in
  binary_vec st' = binary_vec st ++ [String "0" binary; String "1" binary] /\
  dom (scaling_map st') =
    dom (scaling_map st) ∪ list_to_set [binary; String "0" binary; String "1" binary] /\
  dom (wavelet_map st') =
    (if w then dom (wavelet_map st) ∪ list_to_set [String "0" binary; String "1" binary]
     else dom (wavelet_map st)).
Proof.
  simpl.
  destruct (cascade_body_keys h g w binary st 0) as (Hb0 & Hs0 & Hw0).
  destruct (cascade_body_keys h g w binary (cascade_body h g w binary st 0) 1)
    as (Hb1 & Hs1 & Hw1).
  change (pretty 0%nat +:+ binary) with (String "0" binary) in *.
  change (pretty 1%nat +:+ binary) with (String "1" binary) in *.
  split; [|split].
  - rewrite Hb1, Hb0, <- app_assoc. reflexivity.
  - rewrite Hs1, Hs0. set_solver.
  - rewrite Hw1, Hw0. destruct w; set_solver.
Qed.

Lemma cascade_level_fold_keys h g w (l : list string) (st : CascadeState R) :
  let st' := foldl (fun st' binary => foldl (cascade_body h g w binary) st' (seq 0 2)) st l in
  binary_vec st' = binary_vec st ++ prepend_bits l /\
  dom (scaling_map st') =
    dom (scaling_map st) ∪ list_to_set l ∪ list_to_set (prepend_bits l) /\
  dom (wavelet_map st') =
    (if w then dom (wavelet_map st) ∪ list_to_set (prepend_bits l)
     else dom (wavelet_map st)).
Proof.
  revert st. induction l as [|binary l IH]; intros st.
  - simpl. rewrite app_nil_r. split; [reflexivity|].
    split; [set_solver | destruct w; set_solver].
  - cbn [foldl].
    destruct (cascade_pair_keys h g w binary st) as (Hb & Hs & Hw).
    specialize (IH (foldl (cascade_body h g w binary) st (seq 0 2))).
    destruct IH as (IHb & IHs & IHw).
    unfold prepend_bits in *. rewrite bind_cons.
    split; [|split].
    + rewrite IHb, Hb, <- app_assoc. reflexivity.
    + rewrite IHs, Hs. clear. rewrite !list_to_set_app_L, !list_to_set_cons.
      generalize (dom (scaling_map st)) (list_to_set l : gset string).
      intros A B. set_solver.
    + rewrite IHw, Hw. destruct w; [|reflexivity].
      rewrite !list_to_set_app_L. clear. symmetry. apply (assoc_L (∪)).
Qed.

Lemma cascade_level_keys h g w (st : CascadeState R) :
  binary_vec (cascade_level h g w st) = prepend_bits (binary_vec st) /\
  dom (scaling_map (cascade_level h g w st)) =
    dom (scaling_map st) ∪ list_to_set (binary_vec st)
      ∪ list_to_set (prepend_bits (binary_vec st)) /\
  dom (wavelet_map (cascade_level h g w st)) =
    (if w then dom (wavelet_map st) ∪ list_to_set (prepend_bits (binary_vec st))
     else dom (wavelet_map st)).
Proof.
  unfold cascade_level.
  apply (cascade_level_fold_keys h g w (binary_vec st)
           (mkCascade (scaling_map st) (wavelet_map st) [])).
Qed.

Lemma all_keys_succ r : all_keys (S r) = all_keys r ++ level_keys r.
Proof.
  unfold all_keys. rewrite seq_S, bind_app. simpl. rewrite app_nil_r. reflexivity.
Qed.

Lemma level_keys_in_all_keys n : level_keys n ⊆ all_keys (S n).
Proof. rewrite all_keys_succ. intros x Hx. apply elem_of_app. right. exact Hx. Qed.

(** The state after the seeding and [n] passes, without a wavelet pass. *)
Lemma cascade_loop_keys h g seed n :
  let st := foldl (fun st _ => cascade_level h g false st)
                  (cascade_seed h g seed false) (seq 1 n) in
  binary_vec st = level_keys n /\
  dom (scaling_map st) = list_to_set (all_keys (S n)).
Proof.
  induction n as [|n IH].
  - simpl. split; [reflexivity|].
    unfold cascade_seed. simpl. rewrite !dom_insert_L. set_solver.
  - rewrite seq_S, foldl_snoc. cbn zeta in *.
    destruct IH as [IHb IHs].
    destruct (cascade_level_keys h g false
                (foldl (fun st _ => cascade_level h g false st)
                       (cascade_seed h g seed false) (seq 1 n))) as (Hb & Hs & _).
    rewrite IHb in Hb, Hs. rewrite IHs in Hs.
    split; [exact Hb|].
    rewrite Hs, (all_keys_succ (S n)), list_to_set_app_L.
    assert (Hsub : (list_to_set (level_keys n) : gset string) ⊆ list_to_set (all_keys (S n))).
    { intros x. rewrite !elem_of_list_to_set. apply level_keys_in_all_keys. }
    clear -Hsub. simpl level_keys.
    generalize dependent (list_to_set (all_keys (S n)) : gset string).
    intros A Hsub. set_solver.
Qed.

(** The key set of the map that [cascade] returns for a scaling-function
    pass. *)
Lemma cascade_scaling_dom h g seed r bins deriv :
  (1 <= r)%nat ->
  dom (cascade h g seed r bins deriv false).1.1 = list_to_set (all_keys r).
Proof.
  intros Hr. unfold cascade. simpl.
  destruct r as [|n]; [lia|]. replace (S n - 1)%nat with n by lia.
  apply cascade_loop_keys.
Qed.

End CascadeKeys.

(** *** Which strings are addresses *)

Lemma odd_address_cons c s :
  s <> EmptyString ->
  (odd_address (String c s) <-> is_bit c /\ odd_address s).
Proof.
  intros Hne. unfold odd_address. simpl. rewrite Forall_cons, last_cons.
  destruct s as [|c' s']; [contradiction|].
  simpl. rewrite last_cons.
  destruct (last (String.list_ascii_of_string s')); tauto.
Qed.

Lemma length_one_string s : String.length s = 1%nat -> exists c, s = String c EmptyString.
Proof.
  destruct s as [|c [|c' s']]; simpl; try discriminate. intros _. exists c. reflexivity.
Qed.

Lemma elem_of_prepend_bits s l :
  s ∈ prepend_bits l <-> exists b, b ∈ l /\ (s = String "0" b \/ s = String "1" b).
Proof.
  unfold prepend_bits. rewrite list_elem_of_bind. split.
  - intros (b & Hs & Hb). exists b. split; [exact Hb|].
    apply elem_of_cons in Hs as [->|Hs]; [left; reflexivity|].
    apply list_elem_of_singleton in Hs as ->. right; reflexivity.
  - intros (b & Hb & [->| ->]); exists b; (split; [|exact Hb]).
    + apply elem_of_cons. left. reflexivity.
    + apply elem_of_cons. right. apply list_elem_of_singleton. reflexivity.
Qed.

(** The addresses of level [n] are the bit strings of length [n + 1] that
    end in 1. *)
Lemma level_keys_spec n s :
  s ∈ level_keys n <-> odd_address s /\ String.length s = S n.
Proof.
  revert s. induction n as [|n IH]; intros s.
  - simpl. rewrite list_elem_of_singleton. split.
    + intros ->. split; [|reflexivity]. split; simpl.
      * constructor; [right; reflexivity | constructor].
      * reflexivity.
    + intros [[_ Hlast] Hlen]. apply length_one_string in Hlen as [c ->].
      simpl in Hlast. injection Hlast as ->. reflexivity.
  - simpl. rewrite elem_of_prepend_bits. split.
    + intros (b & Hb & Hs). apply IH in Hb as [Hodd Hlen].
      assert (Hne : b <> EmptyString) by (intros ->; discriminate).
      destruct Hs as [-> | ->]; (split; [|simpl; rewrite Hlen; reflexivity]);
        apply odd_address_cons; try assumption; (split; [|assumption]).
      * left; reflexivity.
      * right; reflexivity.
    + intros [Hodd Hlen]. destruct s as [|c b]; [discriminate|].
      simpl in Hlen. injection Hlen as Hlen.
      assert (Hne : b <> EmptyString) by (intros ->; discriminate).
      apply odd_address_cons in Hodd as [Hc Hb]; [|assumption].
      exists b. split; [apply IH; split; assumption|].
      destruct Hc as [-> | ->]; [left | right]; reflexivity.
Qed.

Lemma elem_of_all_keys r s :
  s ∈ all_keys r <->
  s = "0" \/ (odd_address s /\ (1 <= String.length s <= r)%nat).
Proof.
  unfold all_keys. rewrite elem_of_cons, list_elem_of_bind. split.
  - intros [->|(n & Hs & Hn)]; [left; reflexivity|]. right.
    apply level_keys_spec in Hs as [Hodd Hlen].
    apply elem_of_seq in Hn. split; [exact Hodd | lia].
  - intros [->|(Hodd & Hlen)]; [left; reflexivity|]. right.
    exists (String.length s - 1)%nat. split.
    + apply level_keys_spec. split; [exact Hodd | lia].
    + apply elem_of_seq. lia.
Qed.

Lemma pair_bind_perm {A B : Type} (f g : A -> B) (l : list A) :
  l ≫= (fun x => [f x; g x]) ≡ₚ (f <$> l) ++ (g <$> l).
Proof.
  induction l as [|x l IH]; [reflexivity|].
  rewrite bind_cons. simpl. constructor.
  rewrite IH. apply Permutation_middle.
Qed.

Lemma NoDup_prepend_bits l : NoDup l -> NoDup (prepend_bits l).
Proof.
  intros Hl. unfold prepend_bits. rewrite pair_bind_perm.
  apply NoDup_app. split; [|split].
  - apply NoDup_fmap_2; [|exact Hl]. intros x y [= ->]. reflexivity.
  - intros s Hs0 Hs1.
    apply list_elem_of_fmap in Hs0 as (b0 & -> & _).
    apply list_elem_of_fmap in Hs1 as (b1 & Heq & _). discriminate.
  - apply NoDup_fmap_2; [|exact Hl]. intros x y [= ->]. reflexivity.
Qed.

Lemma NoDup_level_keys n : NoDup (level_keys n).
Proof.
  induction n as [|n IH]; simpl.
  - apply NoDup_singleton.
  - apply NoDup_prepend_bits. exact IH.
Qed.

Lemma length_prepend_bits l : length (prepend_bits l) = (2 * length l)%nat.
Proof.
  unfold prepend_bits. rewrite pair_bind_perm, length_app, !length_fmap. lia.
Qed.

Lemma length_level_keys n : length (level_keys n) = (2 ^ n)%nat.
Proof.
  induction n as [|n IH]; [reflexivity|].
  simpl level_keys. rewrite length_prepend_bits, IH. simpl. lia.
Qed.

Lemma length_all_keys r : length (all_keys r) = (2 ^ r)%nat.
Proof.
  induction r as [|r IH]; [reflexivity|].
  rewrite all_keys_succ, length_app, IH, length_level_keys. simpl. lia.
Qed.

Lemma NoDup_all_keys r : NoDup (all_keys r).
Proof.
  induction r as [|r IH].
  - apply NoDup_singleton.
  - rewrite all_keys_succ. apply NoDup_app. split; [exact IH|]. split.
    + intros s Hall Hlev.
      apply level_keys_spec in Hlev as [[_ Hlast] Hlen].
      apply elem_of_all_keys in Hall as [->|[_ Hle]].
      * simpl in Hlast. discriminate.
      * lia.
    + apply NoDup_level_keys.
Qed.

Section CascadeSize.

Context {R : Type} `{Scalar R}.

Lemma cascade_scaling_size (h g : list (Matrix R)) seed r bins deriv :
  (1 <= r)%nat ->
  size (cascade h g seed r bins deriv false).1.1 = (2 ^ r)%nat.
Proof.
  intros Hr. rewrite <- size_dom, (cascade_scaling_dom h g seed r bins deriv Hr).
  rewrite size_list_to_set by apply NoDup_all_keys.
  apply length_all_keys.
Qed.

(** C3, as amended: for a scaling-function pass ([do_wavelet = false])
    with [recursion_number >= 1], every address of the map that [cascade]
    returns has a length between 1 and [recursion_number] (the addresses
    are "0" and the bit strings ending in 1 of each of these lengths),
    and the map holds exactly [2^recursion_number] distinct addresses. *)
Theorem cascade_scaling_address_lengths (h g : list (Matrix R)) (seed : list R)
  (r : nat) (bins deriv : Z) :
  (1 <= r)%nat ->
  (forall key, key ∈ dom (cascade h g seed r bins deriv false).1.1 ->
     (1 <= String.length key <= r)%nat) /\
  (forall len, (1 <= len <= r)%nat ->
     exists key, key ∈ dom (cascade h g seed r bins deriv false).1.1 /\
                 String.length key = len) /\
  size (cascade h g seed r bins deriv false).1.1 = (2 ^ r)%nat.
Proof.
  intros Hr. rewrite (cascade_scaling_dom h g seed r bins deriv Hr).
  split; [|split].
  - intros key Hkey. apply elem_of_list_to_set, elem_of_all_keys in Hkey.
    destruct Hkey as [->|[_ Hlen]]; [simpl; lia | exact Hlen].
  - intros len Hlen.
    assert (Hin : exists key, key ∈ level_keys (len - 1)).
    { pose proof (length_level_keys (len - 1)) as Hl.
      destruct (level_keys (len - 1)) as [|key l] eqn:Hk.
      - simpl in Hl. pose proof (Nat.pow_nonzero 2 (len - 1)). lia.
      - exists key. apply elem_of_cons. left. reflexivity. }
    destruct Hin as [key Hkey]. exists key.
    pose proof (proj1 (level_keys_spec _ _) Hkey) as [Hodd Hl].
    split; [|lia].
    apply elem_of_list_to_set, elem_of_all_keys. right. split; [exact Hodd | lia].
  - apply cascade_scaling_size. exact Hr.
Qed.

End CascadeSize.

(** C3 as stated fails: the scaling-function pass with
    [recursion_number = 2] returns a map that holds the address "0", of
    length 1. *)
Lemma cascade_address_length_counterexample :
  "0" ∈ dom (cascade [one_by_one 1; one_by_one 3] [] [1%float] 2 4 0 false).1.1 /\
  String.length "0" <> 2%nat.
Proof.
  split; [|discriminate].
  apply elem_of_dom. eexists. vm_compute. reflexivity.
Qed.

(** C3, as amended, on a pass with [recursion_number = 2]. *)
Lemma cascade_scaling_address_lengths_witness :
  (forall key,
     key ∈ dom (cascade [one_by_one 1; one_by_one 3] [] [1%float] 2 4 0 false).1.1 ->
     (1 <= String.length key <= 2)%nat) /\
  (forall len, (1 <= len <= 2)%nat ->
     exists key,
       key ∈ dom (cascade [one_by_one 1; one_by_one 3] [] [1%float] 2 4 0 false).1.1 /\
       String.length key = len) /\
  size (cascade [one_by_one 1; one_by_one 3] [] [1%float] 2 4 0 false).1.1 = (2 ^ 2)%nat.
Proof.
  apply (cascade_scaling_address_lengths
           [one_by_one 1; one_by_one 3] [] [1%float] 2 4 0).
  lia.
Defined.

(** ** From addresses to grid cells *)

Lemma binary_prefix_acc s acc :
  Forall is_bit (String.list_ascii_of_string s) ->
  binary_prefix s acc = acc * 2 ^ Z.of_nat (String.length s) + binary_prefix s 0.
Proof.
  revert acc. induction s as [|c s IH]; intros acc Hbits.
  - simpl. lia.
  - simpl in Hbits. apply Forall_cons in Hbits as [Hc Hs].
    cbn [String.length]. rewrite pow2_succ.
    destruct Hc as [-> | ->]; cbn [binary_prefix Ascii.eqb Bool.eqb].
    + rewrite (IH (2 * acc) Hs), (IH (2 * 0) Hs). lia.
    + rewrite (IH (2 * acc + 1) Hs), (IH (2 * 0 + 1) Hs). lia.
Qed.

Lemma binary_prefix_range s :
  Forall is_bit (String.list_ascii_of_string s) ->
  0 <= binary_prefix s 0 < 2 ^ Z.of_nat (String.length s).
Proof.
  induction s as [|c s IH]; intros Hbits.
  - simpl. lia.
  - simpl in Hbits. apply Forall_cons in Hbits as [Hc Hs].
    specialize (IH Hs). cbn [String.length]. rewrite pow2_succ.
    destruct Hc as [-> | ->]; simpl.
    + change (2 * 0) with 0. lia.
    + change (2 * 0 + 1) with 1. rewrite (binary_prefix_acc s 1 Hs). lia.
Qed.

Lemma binary_prefix_zero_cons b : binary_prefix (String "0" b) 0 = binary_prefix b 0.
Proof. reflexivity. Qed.

Lemma binary_prefix_one_cons b :
  Forall is_bit (String.list_ascii_of_string b) ->
  binary_prefix (String "1" b) 0 = 2 ^ Z.of_nat (String.length b) + binary_prefix b 0.
Proof.
  intros Hb. simpl. change (2 * 0 + 1) with 1.
  rewrite (binary_prefix_acc b 1 Hb). lia.
Qed.

Lemma shiftr_pow2 (a b : nat) :
  (b <= a)%nat -> Z.shiftr (2 ^ Z.of_nat a) (Z.of_nat b) = 2 ^ Z.of_nat (a - b).
Proof.
  intros Hab. rewrite Z.shiftr_div_pow2 by lia.
  rewrite Nat2Z.inj_sub by exact Hab.
  symmetry. apply Z.pow_sub_r; lia.
Qed.

Lemma evens_odds_perm (n : nat) :
  evens (Z.of_nat n) ++ odds (Z.of_nat n) ≡ₚ seqZ 0 (2 * Z.of_nat n).
Proof.
  unfold evens, odds. induction n as [|n IH]; [reflexivity|].
  replace (2 * Z.of_nat (S n)) with (Z.of_nat (S (S (2 * n)))) by lia.
  rewrite !seqZ_S, !fmap_app.
  replace (Z.of_nat (2 * n)) with (2 * Z.of_nat n) by lia.
  rewrite <- IH. cbn [fmap list_fmap].
  replace (2 * (0 + Z.of_nat n)) with (0 + 2 * Z.of_nat n) by lia.
  replace (0 + Z.of_nat (S (2 * n))) with (0 + 2 * Z.of_nat n + 1) by lia.
  rewrite <- !app_assoc. apply Permutation_app_head.
  rewrite !app_assoc. apply Permutation_app_tail. apply Permutation_app_comm.
Qed.

Lemma odds_double (n : Z) :
  0 <= n -> odds n ++ (Z.add (2 * n) <$> odds n) = odds (n + n).
Proof.
  intros Hn. unfold odds. rewrite (seqZ_app 0 n n) by lia. rewrite fmap_app.
  f_equal. replace (0 + n) with (n + 0) by lia.
  rewrite <- (fmap_add_seqZ n 0 n), <- !list_fmap_compose.
  apply list_fmap_ext. intros i x _. simpl. lia.
Qed.

Lemma fmap_pair_bind {A B C : Type} (f : B -> C) (g1 g2 : A -> B) (l : list A) :
  f <$> (l ≫= (fun x => [g1 x; g2 x])) = l ≫= (fun x => [f (g1 x); f (g2 x)]).
Proof.
  induction l as [|x l IH]; [reflexivity|].
  rewrite !bind_cons, fmap_app, IH. reflexivity.
Qed.

(** The decimal values of the addresses of one level are the odd numbers
    below [2^(n+1)]. *)
Lemma level_keys_decimals n :
  (fun key => binary_prefix key 0) <$> level_keys n ≡ₚ odds (2 ^ Z.of_nat n).
Proof.
  induction n as [|n IH]; [reflexivity|].
  simpl level_keys. unfold prepend_bits.
  rewrite fmap_pair_bind, pair_bind_perm.
  change (fun x : string => binary_prefix (String "0" x) 0)
    with (fun x : string => binary_prefix x 0).
  assert (Hone : (fun x : string => binary_prefix (String "1" x) 0) <$> level_keys n =
                 Z.add (2 * 2 ^ Z.of_nat n) <$> ((fun x => binary_prefix x 0) <$> level_keys n)).
  { rewrite <- list_fmap_compose. apply Forall_fmap_ext, Forall_forall.
    intros b Hb. apply level_keys_spec in Hb as [[Hbits _] Hlen].
    rewrite (binary_prefix_one_cons b Hbits), Hlen, pow2_succ. reflexivity. }
  rewrite Hone, IH, pow2_succ.
  rewrite odds_double by (pose proof (pow2_pos n); lia).
  replace (2 ^ Z.of_nat n + 2 ^ Z.of_nat n) with (2 * 2 ^ Z.of_nat n) by lia.
  reflexivity.
Qed.

Lemma base_cell_zero r : base_cell r "0" = 0.
Proof. unfold base_cell. simpl. reflexivity. Qed.

Lemma base_cell_level r n key :
  key ∈ level_keys n -> (n < r)%nat ->
  base_cell r key = binary_prefix key 0 * 2 ^ Z.of_nat (r - S n).
Proof.
  intros Hkey Hn. apply level_keys_spec in Hkey as [_ Hlen].
  unfold base_cell. rewrite Hlen, shiftr_pow2 by lia. reflexivity.
Qed.

Lemma base_cell_all_keys_succ r key :
  key ∈ all_keys r -> base_cell (S r) key = 2 * base_cell r key.
Proof.
  unfold all_keys. rewrite elem_of_cons, list_elem_of_bind.
  intros [->|(n & Hkey & Hn)].
  - rewrite !base_cell_zero. reflexivity.
  - apply elem_of_seq in Hn.
    rewrite (base_cell_level (S r) n key Hkey), (base_cell_level r n key Hkey) by lia.
    replace (S r - S n)%nat with (S (r - S n)) by lia.
    rewrite pow2_succ. lia.
Qed.

(** The base cells of the addresses of a scaling-function pass are the
    numbers below [2^r], each once. *)
Lemma base_cells_perm r : base_cell r <$> all_keys r ≡ₚ seqZ 0 (2 ^ Z.of_nat r).
Proof.
  induction r as [|r IH]; [reflexivity|].
  rewrite all_keys_succ, fmap_app.
  assert (Hlow : base_cell (S r) <$> all_keys r = Z.mul 2 <$> (base_cell r <$> all_keys r)).
  { rewrite <- list_fmap_compose. apply Forall_fmap_ext, Forall_forall.
    intros key Hkey. apply (base_cell_all_keys_succ r key Hkey). }
  assert (Hnew : base_cell (S r) <$> level_keys r =
                 (fun key => binary_prefix key 0) <$> level_keys r).
  { apply Forall_fmap_ext, Forall_forall. intros key Hkey.
    rewrite (base_cell_level (S r) r key Hkey) by lia.
    replace (S r - S r)%nat with 0%nat by lia. simpl. lia. }
  rewrite Hlow, Hnew, IH, level_keys_decimals.
  rewrite pow2_succ, <- pow2_nat.
  apply evens_odds_perm.
Qed.

Lemma NoDup_fmap_inj_on {A B : Type} (f : A -> B) (l : list A) x y :
  NoDup (f <$> l) -> x ∈ l -> y ∈ l -> f x = f y -> x = y.
Proof.
  induction l as [|a l IH]; intros Hnd Hx Hy Hxy.
  - inversion Hx.
  - rewrite fmap_cons in Hnd. apply NoDup_cons in Hnd as [Ha Hnd].
    apply elem_of_cons in Hx as [->|Hx], Hy as [->|Hy].
    + reflexivity.
    + exfalso. apply Ha. rewrite Hxy. apply list_elem_of_fmap. eauto.
    + exfalso. apply Ha. rewrite <- Hxy. apply list_elem_of_fmap. eauto.
    + apply IH; assumption.
Qed.

(** On the addresses of a pass with at most 31 levels, the checks of
    [stoi] and of the shift pass and no product wraps. *)
Lemma first_grid_element_base_cell r key :
  (r < 32)%nat -> key ∈ all_keys r ->
  first_grid_element (2 ^ Z.of_nat r) key = Returns (base_cell r key).
Proof.
  intros Hr Hkey.
  assert (Hbig : 2 ^ Z.of_nat r <= 2 ^ 31) by (apply (pow2_le r 31); lia).
  apply elem_of_all_keys in Hkey as [->|[[Hbits Hlast] Hlen]].
  - unfold first_grid_element, stoi, shift_right. simpl.
    rewrite base_cell_zero. destruct r; reflexivity.
  - pose proof (binary_prefix_range key Hbits) as Hdec.
    assert (Hpow : 2 ^ Z.of_nat (String.length key) <= 2 ^ Z.of_nat r)
      by (apply pow2_le; lia).
    unfold first_grid_element, stoi.
    assert (Hstart : starts_with_digit key = true).
    { destruct key as [|c key]; [simpl in Hlen; lia|].
      simpl in Hbits. apply Forall_cons in Hbits as [[-> | ->] _]; reflexivity. }
    rewrite Hstart.
    destruct (Z.leb_spec (binary_prefix key 0) INT_MAX) as [_|Hover];
      [|unfold INT_MAX in Hover; lia].
    unfold shift_right.
    destruct (Nat.ltb_spec (String.length key) 32) as [_|Hlong]; [|lia].
    simpl. f_equal. unfold base_cell.
    rewrite shiftr_pow2 by lia.
    apply wrap32_small.
    pose proof (pow2_pos (r - String.length key)) as Hp.
    assert (Hsplit : 2 ^ Z.of_nat r =
                     2 ^ Z.of_nat (String.length key) * 2 ^ Z.of_nat (r - String.length key)).
    { rewrite <- Z.pow_add_r by lia. f_equal. lia. }
    nia.
Qed.

Section GridCells.

Context {R : Type} `{Scalar R}.

(** C10: in a scaling-function build ([do_wavelet = false]) whose
    recursion number [r] is at least 1, the map returned by [cascade] has
    exactly [2^r] keys: the string "0" and, for each length from 1 to [r],
    every bit string of that length whose last bit is 1. With
    [bins_per_int] the size of the map, as in [fillGridFromMaps], the rule
    [decimal * (bins_per_int >> length)] sends every key to a base cell
    below [bins_per_int], and every base cell below [bins_per_int] is the
    image of exactly one key. *)
Theorem cascade_scaling_addresses_cover (order gridsize : Z) (dims : GridDims)
  (h g : list (Matrix R)) (seed : list R) (deriv : Z) :
  setupDims order gridsize = Returns dims ->
  (1 <= dims_recursion_number dims)%nat ->
  let r := dims_recursion_number dims in
  let values_map := (cascade h g seed r (dims_bins_per_int dims) deriv false).1.1 in
  let bins := wrap32 (Z.of_nat (size values_map)) in
  size values_map = (2 ^ r)%nat /\
  bins = dims_bins_per_int dims /\
  (forall key, key ∈ dom values_map <->
     key = "0" \/ (odd_address key /\ (1 <= String.length key <= r)%nat)) /\
  (forall key, key ∈ dom values_map ->
     exists cell, first_grid_element bins key = Returns cell /\ 0 <= cell < bins) /\
  (forall cell, 0 <= cell < bins ->
     exists key, key ∈ dom values_map /\
       first_grid_element bins key = Returns cell /\
       forall key', key' ∈ dom values_map ->
         first_grid_element bins key' = Returns cell -> key' = key).
Proof.
  intros Hdims Hr r values_map bins.
  destruct (setupDims_bound order gridsize dims Hdims) as [Hr32 Hbins].
  fold r in Hr32, Hbins.
  assert (Hsize : size values_map = (2 ^ r)%nat)
    by (apply cascade_scaling_size; exact Hr).
  assert (Hbig : 2 ^ Z.of_nat r <= 2 ^ 31) by (apply (pow2_le r 31); lia).
  assert (Hb : bins = 2 ^ Z.of_nat r).
  { unfold bins. rewrite Hsize, pow2_nat. apply wrap32_small.
    pose proof (pow2_pos r). lia. }
  assert (Hdom : forall key, key ∈ dom values_map <-> key ∈ all_keys r).
  { intros key. unfold values_map.
    rewrite (cascade_scaling_dom h g seed r _ deriv Hr).
    apply elem_of_list_to_set. }
  pose proof (base_cells_perm r) as Hperm.
  assert (Hnd : NoDup (base_cell r <$> all_keys r))
    by (rewrite Hperm; apply NoDup_seqZ).
  split; [exact Hsize|]. split; [congruence|]. split; [|split].
  - intros key. rewrite Hdom. apply elem_of_all_keys.
  - intros key Hkey. apply Hdom in Hkey. exists (base_cell r key).
    rewrite Hb. split; [apply first_grid_element_base_cell; assumption|].
    assert (Hin : base_cell r key ∈ seqZ 0 (2 ^ Z.of_nat r)).
    { rewrite <- Hperm. apply list_elem_of_fmap. eauto. }
    apply elem_of_seqZ in Hin. lia.
  - intros cell Hcell. rewrite Hb in *.
    assert (Hin : cell ∈ base_cell r <$> all_keys r).
    { rewrite Hperm. apply elem_of_seqZ. lia. }
    apply list_elem_of_fmap in Hin as (key & -> & Hkey).
    exists key. split; [apply Hdom; exact Hkey|].
    split; [apply first_grid_element_base_cell; assumption|].
    intros key' Hkey' Hcell'. apply Hdom in Hkey'.
    rewrite (first_grid_element_base_cell r key' Hr32 Hkey') in Hcell'.
    injection Hcell' as Hcell'.
    apply (NoDup_fmap_inj_on (base_cell r) (all_keys r)); assumption.
Qed.

End GridCells.

(** C10 on the build of order 2 with requested size 10. *)
Lemma cascade_scaling_addresses_cover_witness :
  let values_map := (cascade [one_by_one 1; one_by_one 3] [] [1%float] 2 4 0 false).1.1 in
  let bins := wrap32 (Z.of_nat (size values_map)) in
  size values_map = (2 ^ 2)%nat /\
  bins = 4 /\
  (forall key, key ∈ dom values_map <->
     key = "0" \/ (odd_address key /\ (1 <= String.length key <= 2)%nat)) /\
  (forall key, key ∈ dom values_map ->
     exists cell, first_grid_element bins key = Returns cell /\ 0 <= cell < bins) /\
  (forall cell, 0 <= cell < bins ->
     exists key, key ∈ dom values_map /\
       first_grid_element bins key = Returns cell /\
       forall key', key' ∈ dom values_map ->
         first_grid_element bins key' = Returns cell -> key' = key).
Proof.
  apply (cascade_scaling_addresses_cover 2 10 (mkDims 2 4 12)
           [one_by_one 1; one_by_one 3] [] [1%float] 0).
  - reflexivity.
  - simpl. lia.
Defined.

(** ** The cells written by a build *)

Section WaveletBuild.

Context {R : Type} `{Scalar R}.

Variable plumed_lapack_dgesdd : nat -> Z -> LapackArrays R -> LapackArrays R * Z.
Variable getFilterCoefficients : Z -> bool -> outcome (list R).

(** C1, on the wavelet build of order 2 with requested size 10 (actual
    size 12, [recursion_number = 2]): the map returned by [cascade] holds
    the three addresses "0", "01" and "11" (the address "1" was stored in
    the scaling map, line 188), so [fillGridFromMaps] takes
    [bins_per_int = 3]; each address gets the first cell 0 and the nine
    writes go to the cells 0, 3 and 6, three times each. The other nine
    cells of the grid are never written. *)
Theorem setupGrid_wavelet_cells_collide (h_coeffs g_coeffs : list R) :
  getFilterCoefficients 2 true = Returns h_coeffs -> length h_coeffs = 4%nat ->
  getFilterCoefficients 2 false = Returns g_coeffs -> length g_coeffs = 4%nat ->
  exists grid,
    setupGrid plumed_lapack_dgesdd getFilterCoefficients 2 10 true = Returns grid /\
    grid_nbins grid = 12 /\
    written_cells grid ≡ₚ [0; 0; 0; 3; 3; 3; 6; 6; 6].
Proof.
  intros Hh Hlh Hg Hlg.
  destruct h_coeffs as [|h0 [|h1 [|h2 [|h3 [|]]]]]; try discriminate.
  destruct g_coeffs as [|g0 [|g1 [|g2 [|g3 [|]]]]]; try discriminate.
  unfold setupGrid. rewrite Hh, Hg.
  match goal with |- ex (fun grid => ?X = _ /\ _) => set (res := X) end.
  assert (Hres : match res with
                 | Returns grid => Some (grid_nbins grid, written_cells grid)
                 | _ => None
                 end = Some (12, [0; 3; 6; 0; 3; 6; 0; 3; 6]))
    by (vm_compute; reflexivity).
  destruct res as [grid| |]; try discriminate.
  injection Hres as Hbins Hcells.
  exists grid. split; [reflexivity|]. split; [exact Hbins|].
  rewrite Hcells. apply (bool_decide_unpack _). vm_compute. exact I.
Qed.

End WaveletBuild.

(** The build of C1's failing input on the stand-ins. *)
Lemma setupGrid_wavelet_cells_collide_witness :
  exists grid,
    setupGrid (dgesdd_leaving [0; 0; 1; 0; 0; 2; 0; 0; 3]%float 0) four_taps 2 10 true
      = Returns grid /\
    grid_nbins grid = 12 /\
    written_cells grid ≡ₚ [0; 0; 0; 3; 3; 3; 6; 6; 6].
Proof.
  apply (setupGrid_wavelet_cells_collide
           (dgesdd_leaving [0; 0; 1; 0; 0; 2; 0; 0; 3]%float 0) four_taps
           [1; 2; 3; 4]%float [4; -3; 2; -1]%float);
    reflexivity.
Defined.

(** * Concrete runs on binary64 numbers *)

(** * The scaling-function build covers the grid *)





Lemma for_each_returns {A S : Type} (f : S -> A -> S) (l : list A) (s : S) :
  for_each (fun s x => Returns (f s x)) l s = Returns (foldl f s l).
Proof.
  revert s. induction l as [|x l IH]; intros s; [reflexivity|].
  simpl. apply IH.
Qed.

Lemma for_each_guarded {A S : Type} (ok : A -> bool) (f : S -> A -> S)
  (l : list A) (s : S) :
  Forall (fun x => ok x = true) l ->
  for_each (fun s x => if ok x then Returns (f s x) else Undefined) l s
    = Returns (foldl f s l).
Proof.
  intros Hok. revert s. induction Hok as [|x l Hx _ IH]; intros s; [reflexivity|].
  simpl. rewrite Hx. simpl. apply IH.
Qed.

Lemma for_each_guarded_inv {A S : Type} (ok : A -> bool) (f : S -> A -> S)
  (l : list A) (s s' : S) :
  for_each (fun s x => if ok x then Returns (f s x) else Undefined) l s = Returns s' ->
  Forall (fun x => ok x = true) l.
Proof.
  revert s. induction l as [|x l IH]; intros s; [constructor|].
  simpl. destruct (ok x) eqn:Hx; simpl; [|discriminate].
  intros Hs'. constructor; [exact Hx | exact (IH _ Hs')].
Qed.

Section ScalingBuild.

Context {R : Type} `{Scalar R}.

Lemma length_mult (A : Matrix R) (B : list R) : length (mult A B) = rw A.
Proof. unfold mult. rewrite length_map, length_seq. reflexivity. Qed.

Lemma matvec_at_scale_rw (v : list (Matrix R)) c k :
  rw (matvec_at (map (fun M => mat_scale M c) v) k) = rw (matvec_at v k).
Proof.
  unfold matvec_at.
  exact (f_equal rw (map_nth (fun M => mat_scale M c) v (mat_resize 0 0) k)).
Qed.









End ScalingBuild.


Section ScalingCover.

Context {R : Type} `{Scalar R}.



End ScalingCover.

Section ScalingGrid.

Context {R : Type} `{Scalar R}.

Variable plumed_lapack_dgesdd : nat -> Z -> LapackArrays R -> LapackArrays R * Z.
Variable getFilterCoefficients : Z -> bool -> outcome (list R).


End ScalingGrid.


Section ShallowBuild.

Context {R : Type} `{Scalar R}.

Variable plumed_lapack_dgesdd : nat -> Z -> LapackArrays R -> LapackArrays R * Z.
Variable getFilterCoefficients : Z -> bool -> outcome (list R).

(** A scaling-function build whose requested size does not exceed
    [maxsupport] has [recursion_number = 0] and a grid of [maxsupport]
    cells, but [cascade] still seeds the two addresses "0" and "1": for
    order 2 and requested size 3 the six cells 0 to 5 of a grid of 3
    cells are written. *)
Lemma setupGrid_scaling_depth0_cells (h_coeffs : list R) :
  getFilterCoefficients 2 true = Returns h_coeffs -> length h_coeffs = 4%nat ->
  exists grid,
    setupGrid plumed_lapack_dgesdd getFilterCoefficients 2 3 false = Returns grid /\
    grid_nbins grid = 3 /\
    written_cells grid ≡ₚ [0; 1; 2; 3; 4; 5].
Proof.
  intros Hh Hlh.
  destruct h_coeffs as [|h0 [|h1 [|h2 [|h3 [|]]]]]; try discriminate.
  unfold setupGrid. rewrite Hh.
  match goal with |- ex (fun grid => ?X = _ /\ _) => set (res := X) end.
  assert (Hres : match res with
                 | Returns grid => Some (grid_nbins grid, written_cells grid)
                 | _ => None
                 end = Some (3, [1; 3; 5; 0; 2; 4]))
    by (vm_compute; reflexivity).
  destruct res as [grid| |]; try discriminate.
  injection Hres as Hbins Hcells.
  exists grid. split; [reflexivity|]. split; [exact Hbins|].
  rewrite Hcells. apply (bool_decide_unpack _). vm_compute. exact I.
Qed.

End ShallowBuild.


(** * Further properties of the cascade and of the grid filler *)

(** ** The key sets of both kinds of pass *)

Lemma wavelet_keys_succ n :
  wavelet_keys (S (S n)) = wavelet_keys (S n) ++ level_keys (S n).
Proof.
  unfold wavelet_keys. simpl Nat.sub. rewrite Nat.sub_0_r.
  rewrite seq_S, bind_app. simpl. rewrite app_nil_r. reflexivity.
Qed.

Lemma elem_of_wavelet_keys r s :
  s ∈ wavelet_keys r <->
  s = "0" \/ (odd_address s /\ (2 <= String.length s <= r)%nat).
Proof.
  unfold wavelet_keys. rewrite elem_of_cons, list_elem_of_bind. split.
  - intros [->|(n & Hs & Hn)]; [left; reflexivity|]. right.
    apply level_keys_spec in Hs as [Hodd Hlen].
    apply elem_of_seq in Hn. split; [exact Hodd | lia].
  - intros [->|(Hodd & Hlen)]; [left; reflexivity|]. right.
    exists (String.length s - 1)%nat. split.
    + apply level_keys_spec. split; [exact Hodd | lia].
    + apply elem_of_seq. lia.
Qed.

Lemma NoDup_wavelet_keys r : NoDup (wavelet_keys r).
Proof.
  destruct r as [|r]; [apply NoDup_singleton|].
  induction r as [|r IH]; [apply NoDup_singleton|].
  rewrite wavelet_keys_succ. apply NoDup_app. split; [exact IH|]. split.
  - intros s Hall Hlev.
    apply level_keys_spec in Hlev as [[_ Hlast] Hlen].
    apply elem_of_wavelet_keys in Hall as [->|[_ Hle]].
    + simpl in Hlast. discriminate.
    + lia.
  - apply NoDup_level_keys.
Qed.

Lemma length_wavelet_keys r : (1 <= r)%nat -> length (wavelet_keys r) = (2 ^ r - 1)%nat.
Proof.
  intros Hr. destruct r as [|r]; [lia|]. clear Hr.
  induction r as [|r IH]; [reflexivity|].
  rewrite wavelet_keys_succ, length_app, IH, length_level_keys.
  pose proof (Nat.pow_nonzero 2 r). simpl. lia.
Qed.

Section PassKeys.

Context {R : Type} `{Scalar R}.

(** The state after the seeding and [n] passes of the loop, for either
    kind of pass. *)
Lemma cascade_loop_all_keys (h g : list (Matrix R)) seed w n :
  let st := foldl (fun st _ => cascade_level h g w st)
                  (cascade_seed h g seed w) (seq 1 n) in
  binary_vec st = level_keys n /\
  dom (scaling_map st) = list_to_set (all_keys (S n)) /\
  dom (wavelet_map st) = (if w then list_to_set (wavelet_keys (S n)) else ∅).
Proof.
  induction n as [|n IH].
  - unfold cascade_seed. destruct w; simpl; (split; [reflexivity|]);
      rewrite !dom_insert_L, !dom_empty_L; split; set_solver.
  - rewrite seq_S, foldl_snoc. cbn zeta in *.
    destruct IH as (IHb & IHs & IHw).
    destruct (cascade_level_keys h g w
                (foldl (fun st _ => cascade_level h g w st)
                       (cascade_seed h g seed w) (seq 1 n))) as (Hb & Hs & Hw).
    rewrite IHb in Hb, Hs, Hw. rewrite IHs in Hs. rewrite IHw in Hw.
    split; [exact Hb|]. split.
    + rewrite Hs, (all_keys_succ (S n)), list_to_set_app_L.
      assert (Hsub : (list_to_set (level_keys n) : gset string)
                     ⊆ list_to_set (all_keys (S n))).
      { intros x. rewrite !elem_of_list_to_set. apply level_keys_in_all_keys. }
      clear -Hsub. simpl level_keys.
      generalize dependent (list_to_set (all_keys (S n)) : gset string).
      intros A Hsub. set_solver.
    + rewrite Hw. destruct w; [|reflexivity].
      rewrite wavelet_keys_succ, list_to_set_app_L. reflexivity.
Qed.

(** The key set of the map that [cascade] returns. A recursion number 0
    gives the key set of the recursion number 1. *)
Lemma cascade_dom (h g : list (Matrix R)) seed r bins deriv w :
  dom (cascade h g seed r bins deriv w).1.1 =
    if w then list_to_set (wavelet_keys (S (r - 1)))
    else list_to_set (all_keys (S (r - 1))).
Proof.
  unfold cascade. simpl.
  match goal with
  | |- context [foldl _ (cascade_seed ?h' ?g' seed w) _] =>
      destruct (cascade_loop_all_keys h' g' seed w (r - 1)) as (_ & Hs & Hw)
  end.
  destruct w; assumption.
Qed.

(** X2: in a wavelet pass ([do_wavelet = true]) with recursion number
    [r >= 1], the keys of the returned map are "0" and the bit strings
    ending in 1 of the lengths 2 to [r]; "1" is not a key, and the map
    holds [2^r - 1] addresses. *)
Theorem cascade_wavelet_addresses (h g : list (Matrix R)) (seed : list R)
  (r : nat) (bins deriv : Z) :
  (1 <= r)%nat ->
  (forall key, key ∈ dom (cascade h g seed r bins deriv true).1.1 <->
     key = "0" \/ (odd_address key /\ (2 <= String.length key <= r)%nat)) /\
  "1" ∉ dom (cascade h g seed r bins deriv true).1.1 /\
  size (cascade h g seed r bins deriv true).1.1 = (2 ^ r - 1)%nat.
Proof.
  intros Hr. rewrite <- size_dom, cascade_dom.
  replace (S (r - 1)) with r by lia.
  split; [|split].
  - intros key. rewrite elem_of_list_to_set. apply elem_of_wavelet_keys.
  - rewrite elem_of_list_to_set, elem_of_wavelet_keys.
    intros [Heq|[_ Hlen]]; [discriminate | simpl in Hlen; lia].
  - rewrite size_list_to_set by apply NoDup_wavelet_keys.
    apply length_wavelet_keys. exact Hr.
Qed.

(** X3: the key set of the map returned by [cascade] depends on the
    recursion number and on [do_wavelet] only: two passes that differ in
    their matrices, seed, [bins_per_int] or [derivnum] return maps with
    the same keys, so that in [setupGrid] every key of the value map is
    found in the derivative map. *)
Theorem cascade_keys_independent (h g h' g' : list (Matrix R)) (seed seed' : list R)
  (r : nat) (bins bins' deriv deriv' : Z) (w : bool) :
  dom (cascade h g seed r bins deriv w).1.1 =
  dom (cascade h' g' seed' r bins' deriv' w).1.1.
Proof. rewrite !cascade_dom. reflexivity. Qed.

End PassKeys.

Lemma cascade_wavelet_addresses_witness :
  (forall key,
     key ∈ dom (cascade [one_by_one 1; one_by_one 3] [one_by_one 5; one_by_one 7]
                        [1%float] 2 4 0 true).1.1 <->
     key = "0" \/ (odd_address key /\ (2 <= String.length key <= 2)%nat)) /\
  "1" ∉ dom (cascade [one_by_one 1; one_by_one 3] [one_by_one 5; one_by_one 7]
                     [1%float] 2 4 0 true).1.1 /\
  size (cascade [one_by_one 1; one_by_one 3] [one_by_one 5; one_by_one 7]
                [1%float] 2 4 0 true).1.1 = (2 ^ 2 - 1)%nat.
Proof.
  apply (cascade_wavelet_addresses
           [one_by_one 1; one_by_one 3] [one_by_one 5; one_by_one 7] [1%float] 2 4 0).
  lia.
Defined.

(** ** The sizing loop on exit *)

(** On exit the loop condition is false at the returned count and was true
    at every count tried before. *)
Lemma recursion_loop_exit fuel ms g k r :
  recursion_loop fuel ms g k = Returns r ->
  g <= wrap32 (ms * shl1 r) /\
  forall r', (k <= r')%nat -> (r' < r)%nat -> wrap32 (ms * shl1 r') < g.
Proof.
  revert k. induction fuel as [|fuel IH]; intros k; simpl; [discriminate|].
  destruct (Z.ltb_spec (wrap32 (ms * shl1 k)) g) as [Hlt|Hge].
  - intros Hr. pose proof (recursion_loop_bound _ _ _ _ _ Hr) as Hb.
    apply IH in Hr as [Hexit Hbefore]. split; [exact Hexit|].
    intros r' Hk Hr'. destruct (decide (r' = k)) as [->|Hne]; [exact Hlt|].
    apply Hbefore; lia.
  - intros [= <-]. split; [exact Hge|]. intros r' Hk Hr'. lia.
Qed.

(** X4: whatever the order and the requested size, when the sizing of
    [setupGrid] comes to an end the recursion number is below 32,
    [bins_per_int] is [2^recursion_number], the actual grid size is the
    32-bit product [maxsupport * bins_per_int], it is not below the
    requested size, and every smaller recursion number gives a 32-bit
    product below the requested size. *)
Theorem setupDims_postcondition (order gridsize : Z) (dims : GridDims) :
  setupDims order gridsize = Returns dims ->
  let maxsupport := wrap32 (wrap32 (order * 2) - 1) in
  (dims_recursion_number dims < 32)%nat /\
  dims_bins_per_int dims = 2 ^ Z.of_nat (dims_recursion_number dims) /\
  dims_gridsize dims = wrap32 (maxsupport * dims_bins_per_int dims) /\
  gridsize <= dims_gridsize dims /\
  forall r', (r' < dims_recursion_number dims)%nat ->
    wrap32 (maxsupport * 2 ^ Z.of_nat r') < gridsize.
Proof.
  intros Hd maxsupport.
  pose proof (setupDims_bound order gridsize dims Hd) as [Hr Hbins].
  unfold setupDims in Hd. fold maxsupport in Hd.
  destruct (recursion_loop 32 maxsupport gridsize 0) as [r| |] eqn:Hloop;
    simpl in Hd; try discriminate.
  apply recursion_loop_exit in Hloop as [Hexit Hbefore].
  injection Hd as <-. simpl in *.
  split; [exact Hr|]. split; [exact Hbins|]. split; [reflexivity|].
  split; [exact Hexit|].
  intros r' Hr'. rewrite <- shl1_pow by lia. apply Hbefore; lia.
Qed.

Lemma setupDims_postcondition_witness :
  (dims_recursion_number (mkDims 2 4 12) < 32)%nat /\
  dims_bins_per_int (mkDims 2 4 12) = 2 ^ Z.of_nat (dims_recursion_number (mkDims 2 4 12)) /\
  dims_gridsize (mkDims 2 4 12) =
    wrap32 (wrap32 (wrap32 (2 * 2) - 1) * dims_bins_per_int (mkDims 2 4 12)) /\
  10 <= dims_gridsize (mkDims 2 4 12) /\
  forall r', (r' < dims_recursion_number (mkDims 2 4 12))%nat ->
    wrap32 (wrap32 (wrap32 (2 * 2) - 1) * 2 ^ Z.of_nat r') < 10.
Proof. apply (setupDims_postcondition 2 10 (mkDims 2 4 12)). reflexivity. Defined.

(** ** The array handed to the decomposition, and the denominator *)

Section Transfer.

Context {R : Type} `{Scalar R}.

(** The entry that lines 140-141 store at position [i*N + j]. *)
Lemma transfer_row (A : Matrix R) eigenvalue N i n (da : list R) :
  (n <= N)%nat -> (i * N + N <= length da)%nat ->
  let da' :=
    foldl (fun da j =>
             let da := <[(i * N + j)%nat := mat_get A j i]> da in
             if (i =? j)%nat
             then <[(i * N + j)%nat := rsub (nth (i * N + j) da r0) eigenvalue]> da
             else da)
          da (seq 0 n) in
  length da' = length da /\
  (forall j, (j < n)%nat ->
     nth (i * N + j) da' r0 =
       if (i =? j)%nat then rsub (mat_get A j i) eigenvalue else mat_get A j i) /\
  (forall k, (k < i * N \/ i * N + n <= k)%nat -> nth k da' r0 = nth k da r0).
Proof.
  intros Hn Hlen. induction n as [|n IH].
  - simpl. split; [reflexivity|]. split; [lia|]. reflexivity.
  - rewrite seq_S, foldl_snoc. cbn zeta in *.
    destruct IH as (IHlen & IHin & IHout); [lia|].
    set (da' := foldl _ da (seq 0 n)) in *. simpl.
    assert (Hset : forall (l : list R) k v, (k < length l)%nat ->
                     nth k (<[k := v]> l) r0 = v).
    { intros l k v Hk. rewrite nth_lookup, list_lookup_insert_eq by exact Hk.
      reflexivity. }
    assert (Hother : forall (l : list R) k k' v, k <> k' ->
                       nth k' (<[k := v]> l) r0 = nth k' l r0).
    { intros l k k' v Hk. rewrite !nth_lookup, list_lookup_insert_ne by exact Hk.
      reflexivity. }
    assert (Hcell : forall k,
              nth k (let da0 := <[(i * N + n)%nat := mat_get A n i]> da' in
                     if (i =? n)%nat
                     then <[(i * N + n)%nat :=
                              rsub (nth (i * N + n) da0 r0) eigenvalue]> da0
                     else da0) r0 =
              if decide (k = (i * N + n)%nat)
              then (if (i =? n)%nat then rsub (mat_get A n i) eigenvalue
                    else mat_get A n i)
              else nth k da' r0).
    { intros k. cbn zeta. destruct (decide (k = (i * N + n)%nat)) as [->|Hk].
      - destruct (i =? n)%nat.
        + rewrite Hset by (rewrite length_insert; lia).
          rewrite Hset by lia. reflexivity.
        + apply Hset. lia.
      - destruct (i =? n)%nat.
        + rewrite !Hother by lia. reflexivity.
        + rewrite Hother by lia. reflexivity. }
    split; [|split].
    + destruct (i =? n)%nat; rewrite ?length_insert; exact IHlen.
    + intros j Hj. cbn zeta in Hcell. rewrite Hcell.
      destruct (decide ((i * N + j)%nat = (i * N + n)%nat)) as [Heq|Hne].
      * assert (j = n) by lia. subst j. reflexivity.
      * apply IHin. lia.
    + intros k Hk. cbn zeta in Hcell. rewrite Hcell.
      destruct (decide (k = (i * N + n)%nat)) as [->|Hne]; [lia|].
      apply IHout. lia.
Qed.

Lemma transfer_rows (A : Matrix R) eigenvalue N m (da : list R) :
  (m <= N)%nat -> length da = (N * N)%nat ->
  let da' :=
    foldl (fun da i =>
             foldl (fun da j =>
                      let da := <[(i * N + j)%nat := mat_get A j i]> da in
                      if (i =? j)%nat
                      then <[(i * N + j)%nat := rsub (nth (i * N + j) da r0) eigenvalue]> da
                      else da)
                   da (seq 0 N))
          da (seq 0 m) in
  length da' = (N * N)%nat /\
  (forall i j, (i < m)%nat -> (j < N)%nat ->
     nth (i * N + j) da' r0 =
       if (i =? j)%nat then rsub (mat_get A j i) eigenvalue else mat_get A j i) /\
  (forall k, (m * N <= k)%nat -> nth k da' r0 = nth k da r0).
Proof.
  intros Hm Hlen. induction m as [|m IH].
  - simpl. split; [exact Hlen|]. split; [lia|]. reflexivity.
  - rewrite seq_S, foldl_snoc. cbn zeta in *.
    destruct IH as (IHlen & IHin & IHout); [lia|].
    set (da' := foldl _ da (seq 0 m)) in *. simpl.
    assert (Hfit : (m * N + N <= length da')%nat).
    { rewrite IHlen. pose proof (Nat.mul_le_mono_r (S m) N N Hm) as Hmul.
      simpl in Hmul. lia. }
    destruct (transfer_row A eigenvalue N m N da' (le_n N) Hfit)
      as (Hrlen & Hrin & Hrout).
    cbn zeta in Hrlen, Hrin, Hrout.
    split; [rewrite Hrlen; exact IHlen|]. split.
    + intros i j Hi Hj. destruct (decide (i = m)) as [->|Hne].
      * apply Hrin. exact Hj.
      * rewrite Hrout.
        -- apply IHin; [lia | exact Hj].
        -- left. assert (S i <= m)%nat by lia.
           pose proof (Nat.mul_le_mono_r (S i) m N). simpl in *. lia.
    + intros k Hk. simpl in Hk. rewrite Hrout by lia. apply IHout. lia.
Qed.

(** X5: for a matrix read at the order [N] of [getEigenvector], the array
    handed to the decomposition has [N*N] elements and holds at position
    [i*N + j] the entry [A(j,i)], less the eigenvalue when [i = j]: in the
    column-major reading of the routine it is [A - eigenvalue * I]. *)
Theorem transfer_matrix_entries (A : Matrix R) (eigenvalue : R) (N i j : nat) :
  (i < N)%nat -> (j < N)%nat ->
  length (transfer_matrix A eigenvalue N (replicate (N * N) r0)) = (N * N)%nat /\
  nth (i * N + j) (transfer_matrix A eigenvalue N (replicate (N * N) r0)) r0 =
    if (i =? j)%nat then rsub (mat_get A j i) eigenvalue else mat_get A j i.
Proof.
  intros Hi Hj. unfold transfer_matrix.
  destruct (transfer_rows A eigenvalue N N (replicate (N * N) r0) (le_n N))
    as (Hlen & Hin & _); [apply length_replicate|].
  cbn zeta in Hlen, Hin. split; [exact Hlen|]. apply Hin; assumption.
Qed.

(** X6: the normalisation denominator of [calcIntegerValues] does not
    depend on the component 0 of the eigenvector: the loop of lines
    114-116 starts at 1. *)
Theorem normfactor_sum_skips_first (x y : R) (values : list R) (deriv : Z) :
  normfactor_sum (x :: values) deriv = normfactor_sum (y :: values) deriv.
Proof.
  unfold normfactor_sum.
  replace (length (x :: values) - 1)%nat with (length values) by (simpl; lia).
  replace (length (y :: values) - 1)%nat with (length values) by (simpl; lia).
  enough (Hloop : forall n start acc,
            foldl (fun normfactor i =>
                     radd normfactor
                          (rmul (nth i (x :: values) r0)
                                (rpow (of_int (wrap32 (- Z.of_nat i))) (of_int deriv))))
                  acc (seq (S start) n) =
            foldl (fun normfactor i =>
                     radd normfactor
                          (rmul (nth i (y :: values) r0)
                                (rpow (of_int (wrap32 (- Z.of_nat i))) (of_int deriv))))
                  acc (seq (S start) n))
    by apply Hloop.
  induction n as [|n IH]; intros start acc; [reflexivity|].
  simpl. apply IH.
Qed.

End Transfer.

Lemma transfer_matrix_entries_witness :
  length (transfer_matrix two_by_two 0.5%float 2 (replicate (2 * 2) r0)) = (2 * 2)%nat /\
  nth (0 * 2 + 1) (transfer_matrix two_by_two 0.5%float 2 (replicate (2 * 2) r0)) r0 =
    if (0 =? 1)%nat then rsub (mat_get two_by_two 1 0) 0.5%float
    else mat_get two_by_two 1 0.
Proof. apply (transfer_matrix_entries two_by_two 0.5%float 2 0 1); lia. Defined.

(** ** The shift structure of the two matrices *)

Section Shifts.

Context {R : Type} `{Scalar R}.

(** X7: the matrices that [setupMatrices] returns for a non-empty
    sequence are shifts of one another: [M1] is [M0] moved one column to
    the right, and each of them repeats along the steps of one row and two
    columns. *)
Theorem setupMatrices_shifts (h : list R) :
  (1 <= length h)%nat ->
  exists M0 M1,
    setupMatrices h = Returns [M0; M1] /\
    (forall i j, (i < length h - 1)%nat -> (S j < length h - 1)%nat ->
       mat_get M1 i (S j) = mat_get M0 i j) /\
    (forall i j, (S i < length h - 1)%nat -> (S (S j) < length h - 1)%nat ->
       mat_get M0 (S i) (S (S j)) = mat_get M0 i j /\
       mat_get M1 (S i) (S (S j)) = mat_get M1 i j).
Proof.
  intros Hlen.
  destruct (setupMatrices_spec h Hlen) as (M0 & M1 & Hret & _ & _ & Hget).
  exists M0, M1. split; [exact Hret|]. split.
  - intros i j Hi Hj.
    destruct (Hget i (S j) Hi Hj) as [_ ->].
    destruct (Hget i j Hi) as [-> _]; [lia|].
    unfold M0_entry, M1_entry.
    replace (2 * Z.of_nat i - Z.of_nat (S j)) with (2 * Z.of_nat i - Z.of_nat j - 1) by lia.
    replace (2 * Z.of_nat i - Z.of_nat j - 1 + 1) with (2 * Z.of_nat i - Z.of_nat j) by lia.
    destruct (Z.leb_spec 0 (2 * Z.of_nat i - Z.of_nat j)),
             (Z.leb_spec (-1) (2 * Z.of_nat i - Z.of_nat j - 1)); try lia;
    destruct (Z.leb_spec (2 * Z.of_nat i - Z.of_nat j) (Z.of_nat (length h) - 1)),
             (Z.leb_spec (2 * Z.of_nat i - Z.of_nat j - 1) (Z.of_nat (length h) - 1 - 1));
      try lia; reflexivity.
  - intros i j Hi Hj.
    destruct (Hget (S i) (S (S j)) Hi Hj) as [-> ->].
    destruct (Hget i j) as [-> ->]; [lia | lia |].
    unfold M0_entry, M1_entry.
    replace (2 * Z.of_nat (S i) - Z.of_nat (S (S j)))
      with (2 * Z.of_nat i - Z.of_nat j) by lia.
    split; reflexivity.
Qed.

End Shifts.

Lemma setupMatrices_shifts_witness :
  exists M0 M1 : Matrix float,
    setupMatrices [1; 2; 3; 4]%float = Returns [M0; M1] /\
    (forall i j, (i < length [1; 2; 3; 4]%float - 1)%nat ->
                 (S j < length [1; 2; 3; 4]%float - 1)%nat ->
       mat_get M1 i (S j) = mat_get M0 i j) /\
    (forall i j, (S i < length [1; 2; 3; 4]%float - 1)%nat ->
                 (S (S j) < length [1; 2; 3; 4]%float - 1)%nat ->
       mat_get M0 (S i) (S (S j)) = mat_get M0 i j /\
       mat_get M1 (S i) (S (S j)) = mat_get M1 i j).
Proof. apply (setupMatrices_shifts [1; 2; 3; 4]%float). simpl. lia. Defined.

(** ** The grid filler: when it returns, and what it adds *)

Lemma for_each_returns_iff {A S : Type} (body : S -> A -> outcome S) (ok : A -> Prop)
  (l : list A) (s : S) :
  (forall s x, (exists s', body s x = Returns s') <-> ok x) ->
  (exists s', for_each body l s = Returns s') <-> Forall ok l.
Proof.
  intros Hbody. revert s. induction l as [|x l IH]; intros s.
  - simpl. split; [constructor | eauto].
  - simpl. rewrite Forall_cons. split.
    + intros [s' Hs'].
      destruct (body s x) as [s1| |] eqn:Hx; simpl in Hs'; try discriminate.
      split; [apply (Hbody s x); eauto | apply (IH s1); eauto].
    + intros [Hx Hl]. apply (Hbody s x) in Hx as [s1 Hs1].
      rewrite Hs1, outcome_bind_returns. apply IH. exact Hl.
Qed.

Lemma first_grid_element_returns_iff bins key :
  (exists c, first_grid_element bins key = Returns c) <->
  starts_with_digit key = true /\ binary_prefix key 0 <= INT_MAX /\
  (String.length key < 32)%nat.
Proof.
  unfold first_grid_element, stoi, shift_right.
  destruct (starts_with_digit key); simpl.
  - destruct (Z.leb_spec (binary_prefix key 0) INT_MAX) as [Hle|Hgt]; simpl.
    + destruct (Nat.ltb_spec (String.length key) 32) as [Hlt|Hge]; simpl.
      * split; [auto | eauto].
      * split; [intros [c Hc]; discriminate | intros (_ & _ & Hlt); lia].
    + split; [intros [c Hc]; discriminate | intros (_ & Hle & _); lia].
  - split; [intros [c Hc]; discriminate | intros (Hd & _); discriminate].
Qed.

Section Filler.

Context {R : Type} `{Scalar R}.

Lemma fill_entry_returns_iff bins (derivs_map : gmap string (list R)) (grid : Grid R)
  (e : string * list R) :
  (exists grid', fill_entry bins derivs_map grid e = Returns grid') <->
  (exists c, first_grid_element bins e.1 = Returns c) /\
  (e.2 = [] \/
   exists d, derivs_map !! e.1 = Some d /\ (length e.2 <= length d)%nat).
Proof.
  unfold fill_entry.
  destruct (first_grid_element bins e.1) as [c| |]; simpl.
  - destruct (derivs_map !! e.1) as [second|].
    + split.
      * intros [grid' Hret]. split; [eauto|].
        apply for_each_guarded_inv in Hret.
        destruct e.2 as [|x v] eqn:He2; [left; reflexivity|].
        right. exists second. split; [reflexivity|].
        rewrite Forall_forall in Hret.
        specialize (Hret (length v)). apply Nat.ltb_lt in Hret; [simpl; lia|].
        apply elem_of_seq. simpl. lia.
      * intros [_ Hlen].
        rewrite (for_each_guarded
                   (fun i => (i <? length second)%nat)
                   (fun grid i =>
                      setValueAndDerivatives grid
                        (wrap32 (c + wrap32 (bins * Z.of_nat i)))
                        (nth i e.2 r0) [nth i second r0])); [eauto|].
        apply Forall_forall. intros i Hi. apply elem_of_seq in Hi.
        apply Nat.ltb_lt.
        destruct Hlen as [Hnil|(d & [= <-] & Hle)]; [rewrite Hnil in Hi; simpl in Hi|];
          lia.
    + destruct e.2 as [|x v]; simpl.
      * split; [intros _; split; eauto | eauto].
      * split; [intros [g Hg]; discriminate|].
        intros [_ [Hnil|(d & Hd & _)]]; discriminate.
  - split; [intros [g Hg]; discriminate | intros [[c Hc] _]; discriminate].
  - split; [intros [g Hg]; discriminate | intros [[c Hc] _]; discriminate].
Qed.

Lemma fill_entries_returns_iff bins (derivs_map : gmap string (list R))
  (entries : list (string * list R)) (grid : Grid R) :
  (exists grid', for_each (fill_entry bins derivs_map) entries grid = Returns grid') <->
  Forall (fun e : string * list R =>
            (starts_with_digit e.1 = true /\ binary_prefix e.1 0 <= INT_MAX /\
             (String.length e.1 < 32)%nat) /\
            (e.2 = [] \/
             exists d, derivs_map !! e.1 = Some d /\ (length e.2 <= length d)%nat))
         entries.
Proof.
  apply for_each_returns_iff.
  intros g e. rewrite fill_entry_returns_iff, first_grid_element_returns_iff.
  reflexivity.
Qed.

(** X8: on a value map whose keys are strings of binary digits,
    [fillGridFromMaps] comes to an end exactly when every key is
    non-empty and shorter than 32 characters and, unless its vector is
    empty, is a key of the derivative map with a derivative vector at
    least as long as the value vector. Otherwise [std::stoi] throws (no
    digit, or a value above [INT_MAX]), or the shift, the dereferenced
    end iterator or the read past the end of the derivative vector is
    undefined. *)
Theorem fillGridFromMaps_returns_iff (grid : Grid R)
  (values_map derivs_map : gmap string (list R)) :
  (forall key, key ∈ dom values_map ->
     Forall is_bit (String.list_ascii_of_string key)) ->
  ((exists grid', fillGridFromMaps grid values_map derivs_map = Returns grid') <->
   forall key v, values_map !! key = Some v ->
     key <> EmptyString /\ (String.length key < 32)%nat /\
     (v = [] \/
      exists d, derivs_map !! key = Some d /\ (length v <= length d)%nat)).
Proof.
  intros Hbits.
  unfold fillGridFromMaps. rewrite fill_entries_returns_iff, Forall_forall. split.
  - intros Hall key v Hkv.
    destruct (Hall (key, v)) as [(Hd & Hv & Hl) Hderiv];
      [apply elem_of_map_to_list; exact Hkv|].
    simpl in *. split; [|auto].
    intros ->. discriminate.
  - intros Hall [key v] Hkv. apply elem_of_map_to_list in Hkv.
    destruct (Hall key v Hkv) as (Hne & Hl & Hderiv). simpl.
    assert (Hkey : Forall is_bit (String.list_ascii_of_string key))
      by (apply Hbits, elem_of_dom; eauto).
    split; [|exact Hderiv]. split; [|split; [|exact Hl]].
    + destruct key as [|c key]; [contradiction|].
      simpl in Hkey. apply Forall_cons in Hkey as [[-> | ->] _]; reflexivity.
    + pose proof (binary_prefix_range key Hkey) as Hdec.
      assert (Hpow : 2 ^ Z.of_nat (String.length key) <= 2 ^ 31)
        by (apply (pow2_le _ 31); lia).
      unfold INT_MAX. lia.
Qed.

Lemma grid_writes_foldl (idx : nat -> Z) (val : nat -> R) (der : nat -> list R)
  (l : list nat) (grid : Grid R) :
  let grid' := foldl (fun grid i => setValueAndDerivatives grid (idx i) (val i) (der i))
                     grid l in
  grid_name grid' = grid_name grid /\
  grid_nbins grid' = grid_nbins grid /\
  grid_writes grid' = grid_writes grid ++ ((fun i => (idx i, val i, der i)) <$> l).
Proof.
  revert grid. induction l as [|i l IH]; intros grid.
  - simpl. rewrite app_nil_r. auto.
  - cbn [foldl]. cbn zeta in *.
    destruct (IH (setValueAndDerivatives grid (idx i) (val i) (der i))) as (Hn & Hb & Hw).
    split; [rewrite Hn; reflexivity|]. split; [rewrite Hb; reflexivity|].
    rewrite Hw. unfold setValueAndDerivatives. simpl.
    rewrite <- app_assoc. reflexivity.
Qed.

(** What one element of the value map adds to the grid. *)
Lemma fill_entry_appends bins (derivs_map : gmap string (list R)) (grid grid' : Grid R)
  (e : string * list R) :
  fill_entry bins derivs_map grid e = Returns grid' ->
  grid_name grid' = grid_name grid /\
  grid_nbins grid' = grid_nbins grid /\
  exists new,
    grid_writes grid' = grid_writes grid ++ new /\
    length new = length e.2 /\
    Forall (fun w : Z * R * list R => 0 <= w.1.1 < 2 ^ 32 /\ length w.2 = 1%nat) new.
Proof.
  unfold fill_entry.
  destruct (first_grid_element bins e.1) as [c| |]; simpl; try discriminate.
  destruct (derivs_map !! e.1) as [second|].
  - intros Hret. pose proof (for_each_guarded_inv _ _ _ _ _ Hret) as Hok.
    rewrite (for_each_guarded
               (fun i => (i <? length second)%nat)
               (fun grid i =>
                  setValueAndDerivatives grid
                    (wrap32 (c + wrap32 (bins * Z.of_nat i)))
                    (nth i e.2 r0) [nth i second r0]) _ _ Hok) in Hret.
    injection Hret as <-.
    destruct (grid_writes_foldl
                (fun i => wrap32 (c + wrap32 (bins * Z.of_nat i)))
                (fun i => nth i e.2 r0) (fun i => [nth i second r0])
                (seq 0 (length e.2)) grid) as (Hn & Hb & Hw).
    cbn zeta in Hn, Hb, Hw.
    split; [exact Hn|]. split; [exact Hb|].
    eexists. split; [exact Hw|]. split.
    + rewrite length_fmap, length_seq. reflexivity.
    + apply Forall_fmap, Forall_forall. intros i _. simpl.
      split; [|reflexivity]. unfold wrap32. apply Z.mod_pos_bound. lia.
  - destruct e.2 as [|x v]; simpl; [|discriminate].
    intros [= <-]. split; [reflexivity|]. split; [reflexivity|].
    exists []. rewrite app_nil_r. split; [reflexivity|]. split; [reflexivity|].
    constructor.
Qed.

Lemma fill_entries_appends bins (derivs_map : gmap string (list R))
  (entries : list (string * list R)) (grid grid' : Grid R) :
  for_each (fill_entry bins derivs_map) entries grid = Returns grid' ->
  grid_name grid' = grid_name grid /\
  grid_nbins grid' = grid_nbins grid /\
  exists new,
    grid_writes grid' = grid_writes grid ++ new /\
    length new = sum_list ((fun e => length e.2) <$> entries) /\
    Forall (fun w : Z * R * list R => 0 <= w.1.1 < 2 ^ 32 /\ length w.2 = 1%nat) new.
Proof.
  revert grid. induction entries as [|e entries IH]; intros grid.
  - simpl. intros [= <-]. split; [reflexivity|]. split; [reflexivity|].
    exists []. rewrite app_nil_r. split; [reflexivity|]. split; [reflexivity|].
    constructor.
  - simpl.
    destruct (fill_entry bins derivs_map grid e) as [g1| |] eqn:He; simpl;
      try discriminate.
    intros Hrest.
    apply fill_entry_appends in He as (Hn1 & Hb1 & new1 & Hw1 & Hl1 & Hf1).
    apply IH in Hrest as (Hn2 & Hb2 & new2 & Hw2 & Hl2 & Hf2).
    split; [rewrite Hn2; exact Hn1|]. split; [rewrite Hb2; exact Hb1|].
    exists (new1 ++ new2). split; [|split].
    + rewrite Hw2, Hw1, <- app_assoc. reflexivity.
    + rewrite length_app, Hl1, Hl2. reflexivity.
    + apply Forall_app. split; assumption.
Qed.

(** X9: when [fillGridFromMaps] returns, the grid keeps its name and its
    number of bins, the calls of the mutator it had received are still
    there, in order, and behind them there is one new call for each
    component of each vector of the value map, each with an index in the
    range of [unsigned] and a derivative vector of one element. *)
Theorem fillGridFromMaps_appends (grid grid' : Grid R)
  (values_map derivs_map : gmap string (list R)) :
  fillGridFromMaps grid values_map derivs_map = Returns grid' ->
  grid_name grid' = grid_name grid /\
  grid_nbins grid' = grid_nbins grid /\
  exists new,
    grid_writes grid' = grid_writes grid ++ new /\
    length new = sum_list ((fun e => length e.2) <$> map_to_list values_map) /\
    Forall (fun w : Z * R * list R => 0 <= w.1.1 < 2 ^ 32 /\ length w.2 = 1%nat) new.
Proof. unfold fillGridFromMaps. apply fill_entries_appends. Qed.

End Filler.

(** X8 on a value vector of two components against a derivative vector
    of one: the right-hand side fails at the key "1", and so the filler
    does not come to an end. *)
Lemma fillGridFromMaps_returns_iff_witness :
  (exists grid',
     fillGridFromMaps (mkGrid "db1_phi" 2 [])
       ({["1" := [2; 3]%float]} : gmap string (list float)) {["1" := [4%float]]}
     = Returns grid') <->
  forall key v, ({["1" := [2; 3]%float]} : gmap string (list float)) !! key = Some v ->
    key <> EmptyString /\ (String.length key < 32)%nat /\
    (v = [] \/
     exists d, ({["1" := [4%float]]} : gmap string (list float)) !! key = Some d /\
               (length v <= length d)%nat).
Proof.
  apply (fillGridFromMaps_returns_iff (mkGrid "db1_phi" 2 [])
           {["1" := [2; 3]%float]} {["1" := [4%float]]}).
  intros key Hkey. rewrite dom_singleton_L in Hkey.
  apply elem_of_singleton in Hkey as ->.
  constructor; [right; reflexivity | constructor].
Defined.

Lemma fillGridFromMaps_appends_witness :
  grid_name (mkGrid "db1_phi" 2 [(0, 1%float, [3%float]); (0, 2%float, [4%float])]) =
    grid_name (mkGrid "db1_phi" 2 [(0, 1%float, [3%float])]) /\
  grid_nbins (mkGrid "db1_phi" 2 [(0, 1%float, [3%float]); (0, 2%float, [4%float])]) =
    grid_nbins (mkGrid "db1_phi" 2 [(0, 1%float, [3%float])]) /\
  exists new,
    grid_writes (mkGrid "db1_phi" 2 [(0, 1%float, [3%float]); (0, 2%float, [4%float])]) =
      grid_writes (mkGrid "db1_phi" 2 [(0, 1%float, [3%float])]) ++ new /\
    length new =
      sum_list ((fun e => length e.2) <$>
                map_to_list ({["1" := [2%float]]} : gmap string (list float))) /\
    Forall (fun w : Z * float * list float => 0 <= w.1.1 < 2 ^ 32 /\ length w.2 = 1%nat) new.
Proof.
  apply (fillGridFromMaps_appends
           (mkGrid "db1_phi" 2 [(0, 1%float, [3%float])])
           (mkGrid "db1_phi" 2 [(0, 1%float, [3%float]); (0, 2%float, [4%float])])
           {["1" := [2%float]]} {["1" := [4%float]]}).
  vm_compute. reflexivity.
Defined.

(** ** Failure of the coefficient provider *)

Section ProviderFailure.

Context {R : Type} `{Scalar R}.

Variable plumed_lapack_dgesdd : nat -> Z -> LapackArrays R -> LapackArrays R * Z.
Variable getFilterCoefficients : Z -> bool -> outcome (list R).


End ProviderFailure.


(** ** What the loop of the cascade preserves *)

Lemma prepend_inj (k k' : nat) (b b' : string) :
  (k < 2)%nat -> (k' < 2)%nat -> pretty k +:+ b = pretty k' +:+ b' -> k = k' /\ b = b'.
Proof.
  intros Hk Hk' Heq.
  destruct k as [|[|k]]; [| |lia]; destruct k' as [|[|k']]; try lia;
    change (pretty 0%nat +:+ b) with (String "0" b) in Heq;
    change (pretty 1%nat +:+ b) with (String "1" b) in Heq;
    change (pretty 0%nat +:+ b') with (String "0" b') in Heq;
    change (pretty 1%nat +:+ b') with (String "1" b') in Heq;
    try discriminate; injection Heq as ->; split; reflexivity.
Qed.

Lemma prepend_not_seed (k : nat) (b : string) :
  (k < 2)%nat -> b <> EmptyString -> pretty k +:+ b <> "0" /\ pretty k +:+ b <> "1".
Proof.
  intros Hk Hb.
  destruct k as [|[|k]]; [| |lia];
    [change (pretty 0%nat +:+ b) with (String "0" b)
    |change (pretty 1%nat +:+ b) with (String "1" b)];
    split; intros Heq; injection Heq as Heq; apply Hb; assumption.
Qed.

Section PassInvariant.

Context {R : Type} `{Scalar R}.

Lemma map_insert_new_old (m : gmap string (list R)) k v k' x :
  m !! k' = Some x -> map_insert_new m k v !! k' = Some x.
Proof.
  intros Hx. unfold map_insert_new. destruct (m !! k) as [y|] eqn:Hk; [exact Hx|].
  rewrite lookup_insert_ne; [exact Hx|]. intros <-. congruence.
Qed.

Lemma map_insert_new_inv (m : gmap string (list R)) k v k' x :
  map_insert_new m k v !! k' = Some x -> m !! k' = Some x \/ (k' = k /\ x = v).
Proof.
  unfold map_insert_new. destruct (m !! k) as [y|] eqn:Hk; [auto|].
  destruct (decide (k = k')) as [<-|Hne].
  - rewrite lookup_insert_eq. intros [= <-]. right. auto.
  - rewrite lookup_insert_ne by exact Hne. auto.
Qed.

(** A property of the two maps that every insertion of the loop body
    preserves holds after the body. *)
Lemma cascade_body_preserves (P : gmap string (list R) -> gmap string (list R) -> Prop)
  (h g : list (Matrix R)) (w : bool) binary (st : CascadeState R) k :
  (forall sm wm b u k, (k < 2)%nat -> sm !! b = Some u -> P sm wm ->
     P (map_insert_new sm (pretty k +:+ b) (mult (matvec_at h k) u))
       (if w then map_insert_new wm (pretty k +:+ b) (mult (matvec_at g k) u) else wm)) ->
  (k < 2)%nat -> binary ∈ dom (scaling_map st) ->
  P (scaling_map st) (wavelet_map st) ->
  P (scaling_map (cascade_body h g w binary st k))
    (wavelet_map (cascade_body h g w binary st k)).
Proof.
  intros Hstep Hk Hin HP. apply elem_of_dom in Hin as [u Hu].
  specialize (Hstep _ _ binary u k Hk Hu HP).
  unfold cascade_body, map_index. rewrite Hu. destruct w.
  - rewrite (map_insert_new_old _ (pretty k +:+ binary) _ binary u Hu). exact Hstep.
  - exact Hstep.
Qed.

Lemma cascade_fold_preserves (P : gmap string (list R) -> gmap string (list R) -> Prop)
  (h g : list (Matrix R)) (w : bool) (l : list string) (st : CascadeState R) :
  (forall sm wm b u k, (k < 2)%nat -> sm !! b = Some u -> P sm wm ->
     P (map_insert_new sm (pretty k +:+ b) (mult (matvec_at h k) u))
       (if w then map_insert_new wm (pretty k +:+ b) (mult (matvec_at g k) u) else wm)) ->
  Forall (fun b => b ∈ dom (scaling_map st)) l ->
  P (scaling_map st) (wavelet_map st) ->
  let st' := foldl (fun st' binary => foldl (cascade_body h g w binary) st' (seq 0 2)) st l in
  P (scaling_map st') (wavelet_map st').
Proof.
  intros Hstep. revert st. induction l as [|binary l IH]; intros st Hin HP.
  - exact HP.
  - apply Forall_cons in Hin as [Hb Hl]. cbn [foldl]. apply IH.
    + destruct (cascade_pair_keys h g w binary st) as (_ & Hd & _).
      cbn zeta in Hd. rewrite Hd. eapply Forall_impl; [exact Hl|].
      intros b Hbin. apply elem_of_union. left. exact Hbin.
    + simpl. apply cascade_body_preserves; [exact Hstep | lia | |].
      * destruct (cascade_body_keys h g w binary st 0) as (_ & Hd & _).
        rewrite Hd. set_solver.
      * apply cascade_body_preserves; [exact Hstep | lia | exact Hb | exact HP].
Qed.

Lemma cascade_loop_preserves (P : gmap string (list R) -> gmap string (list R) -> Prop)
  (h g : list (Matrix R)) (w : bool) (seed : list R) (n : nat) :
  (forall sm wm b u k, (k < 2)%nat -> sm !! b = Some u -> P sm wm ->
     P (map_insert_new sm (pretty k +:+ b) (mult (matvec_at h k) u))
       (if w then map_insert_new wm (pretty k +:+ b) (mult (matvec_at g k) u) else wm)) ->
  P (scaling_map (cascade_seed h g seed w)) (wavelet_map (cascade_seed h g seed w)) ->
  let st := foldl (fun st _ => cascade_level h g w st)
                  (cascade_seed h g seed w) (seq 1 n) in
  P (scaling_map st) (wavelet_map st).
Proof.
  intros Hstep Hseed. induction n as [|n IH]; [exact Hseed|].
  rewrite seq_S, foldl_snoc. cbn zeta in *.
  destruct (cascade_loop_all_keys h g seed w n) as (Hb & Hd & _).
  cbn zeta in Hb, Hd.
  set (st := foldl (fun st _ => cascade_level h g w st)
                   (cascade_seed h g seed w) (seq 1 n)) in *.
  unfold cascade_level.
  apply (cascade_fold_preserves P h g w (binary_vec st)
           (mkCascade (scaling_map st) (wavelet_map st) [])); [exact Hstep | | exact IH].
  simpl. rewrite Hb, Hd. apply Forall_forall. intros b Hbin.
  apply elem_of_list_to_set. apply level_keys_in_all_keys. exact Hbin.
Qed.

(** The refinement relation of the scaling map survives an insertion of
    the loop body. *)
Lemma refined_step (h : list (Matrix R)) (s0 s1 : list R)
  (sm : gmap string (list R)) b u k :
  (k < 2)%nat -> sm !! b = Some u ->
  sm !! "0" = Some s0 /\ sm !! "1" = Some s1 /\ refined h sm ->
  map_insert_new sm (pretty k +:+ b) (mult (matvec_at h k) u) !! "0" = Some s0 /\
  map_insert_new sm (pretty k +:+ b) (mult (matvec_at h k) u) !! "1" = Some s1 /\
  refined h (map_insert_new sm (pretty k +:+ b) (mult (matvec_at h k) u)).
Proof.
  intros Hk Hu (H0 & H1 & Href).
  split; [apply map_insert_new_old; exact H0|].
  split; [apply map_insert_new_old; exact H1|].
  intros key v Hkv. apply map_insert_new_inv in Hkv as [Hold|[-> ->]].
  - destruct (Href key v Hold) as [Hz|[Ho|(k' & b' & u' & Hk' & Hkey & Hb' & Hv)]];
      [left; exact Hz | right; left; exact Ho|].
    right. right. exists k', b', u'.
    split; [exact Hk'|]. split; [exact Hkey|]. split; [|exact Hv].
    apply map_insert_new_old. exact Hb'.
  - right. right. exists k, b, u.
    split; [exact Hk|]. split; [reflexivity|]. split; [|reflexivity].
    apply map_insert_new_old. exact Hu.
Qed.

Lemma refined_lookup (h : list (Matrix R)) (m : gmap string (list R)) (k : nat) b v :
  refined h m -> (k < 2)%nat -> b <> EmptyString ->
  m !! (pretty k +:+ b) = Some v ->
  exists u, m !! b = Some u /\ v = mult (matvec_at h k) u.
Proof.
  intros Href Hk Hb Hv.
  destruct (prepend_not_seed k b Hk Hb) as [Hn0 Hn1].
  destruct (Href _ _ Hv) as [Hz|[Ho|(k' & b' & u' & Hk' & Hkey & Hb' & Hv')]];
    [contradiction | contradiction |].
  apply prepend_inj in Hkey as [-> ->]; [|assumption..].
  exists u'. split; assumption.
Qed.

Lemma refined_from_lookup (g : list (Matrix R)) (sm wm : gmap string (list R))
  (k : nat) b v :
  refined_from g sm wm -> (k < 2)%nat -> b <> EmptyString ->
  wm !! (pretty k +:+ b) = Some v ->
  exists u, sm !! b = Some u /\ v = mult (matvec_at g k) u.
Proof.
  intros Href Hk Hb Hv.
  destruct (prepend_not_seed k b Hk Hb) as [Hn0 _].
  destruct (Href _ _ Hv) as [Hz|(k' & b' & u' & Hk' & Hkey & Hb' & Hv')];
    [contradiction|].
  apply prepend_inj in Hkey as [-> ->]; [|assumption..].
  exists u'. split; assumption.
Qed.

(** X11: the refinement equation in the map of a scaling-function pass.
    With the matrices as the call leaves them (scaled when
    [derivnum <> 0]), the returned map holds the seed at "0", [M1 * seed]
    at "1", and at every longer address [k ++ b] the product of [M_k] with
    the vector it holds at [b], which is therefore a key as well. *)
Theorem cascade_scaling_refinement (h g : list (Matrix R)) (seed : list R)
  (r : nat) (bins deriv : Z) :
  let res := cascade h g seed r bins deriv false in
  res.1.1 !! "0" = Some seed /\
  res.1.1 !! "1" = Some (mult (matvec_at res.1.2 1) seed) /\
  forall (k : nat) b v, (k < 2)%nat -> b <> EmptyString ->
    res.1.1 !! (pretty k +:+ b) = Some v ->
    exists u, res.1.1 !! b = Some u /\ v = mult (matvec_at res.1.2 k) u.
Proof.
  unfold cascade. simpl.
  set (h' := if deriv =? 0 then h else map (fun M => mat_scale M (of_int 2)) h).
  destruct (cascade_loop_preserves
              (fun sm _ => sm !! "0" = Some seed /\
                           sm !! "1" = Some (mult (matvec_at h' 1) seed) /\
                           refined h' sm)
              h' g false seed (r - 1)) as (H0 & H1 & Href).
  - intros sm wm b u k Hk Hu HP. apply refined_step; assumption.
  - unfold cascade_seed. simpl. split; [|split].
    + rewrite lookup_insert_ne by discriminate. apply lookup_insert_eq.
    + apply lookup_insert_eq.
    + intros key v Hkv.
      destruct (decide (key = "1")) as [->|Hn1]; [right; left; reflexivity|].
      rewrite lookup_insert_ne in Hkv by congruence.
      destruct (decide (key = "0")) as [->|Hn0]; [left; reflexivity|].
      rewrite lookup_insert_ne in Hkv by congruence.
      rewrite lookup_empty in Hkv. discriminate.
  - split; [exact H0|]. split; [exact H1|].
    intros k b v Hk Hb Hv. apply (refined_lookup h' _ k b v); assumption.
Qed.

(** X12: the values of a wavelet pass. With the matrices as the call
    leaves them, the returned map holds [G0 * seed] at "0", and at every
    longer address [k ++ b] the product of [G_k] with the vector that the
    scaling map of the pass holds at [b]. That scaling map holds the seed
    at "0", but [G1 * seed] at "1" (line 188), and is refined from these
    two by [M_0] and [M_1]: below the first level the wavelet matrices act
    on vectors that a wavelet matrix has already produced. *)
Theorem cascade_wavelet_refinement (h g : list (Matrix R)) (seed : list R)
  (r : nat) (bins deriv : Z) :
  let res := cascade h g seed r bins deriv true in
  res.1.1 !! "0" = Some (mult (matvec_at res.2 0) seed) /\
  exists sm : gmap string (list R),
    sm !! "0" = Some seed /\
    sm !! "1" = Some (mult (matvec_at res.2 1) seed) /\
    (forall (k : nat) b v, (k < 2)%nat -> b <> EmptyString ->
       sm !! (pretty k +:+ b) = Some v ->
       exists u, sm !! b = Some u /\ v = mult (matvec_at res.1.2 k) u) /\
    (forall (k : nat) b v, (k < 2)%nat -> b <> EmptyString ->
       res.1.1 !! (pretty k +:+ b) = Some v ->
       exists u, sm !! b = Some u /\ v = mult (matvec_at res.2 k) u).
Proof.
  unfold cascade. simpl.
  set (h' := if deriv =? 0 then h else map (fun M => mat_scale M (of_int 2)) h).
  set (g' := if negb (deriv =? 0) then map (fun M => mat_scale M (of_int 2)) g else g).
  destruct (cascade_loop_preserves
              (fun sm wm => (sm !! "0" = Some seed /\
                             sm !! "1" = Some (mult (matvec_at g' 1) seed) /\
                             refined h' sm) /\
                            wm !! "0" = Some (mult (matvec_at g' 0) seed) /\
                            refined_from g' sm wm)
              h' g' true seed (r - 1)) as ((H0 & H1 & Href) & Hw0 & Hwref).
  - intros sm wm b u k Hk Hu (Hsm & Hw0 & Hwref).
    split; [apply refined_step; assumption|].
    split; [apply map_insert_new_old; exact Hw0|].
    intros key v Hkv. apply map_insert_new_inv in Hkv as [Hold|[-> ->]].
    + destruct (Hwref key v Hold) as [Hz|(k' & b' & u' & Hk' & Hkey & Hb' & Hv)];
        [left; exact Hz|].
      right. exists k', b', u'.
      split; [exact Hk'|]. split; [exact Hkey|]. split; [|exact Hv].
      apply map_insert_new_old. exact Hb'.
    + right. exists k, b, u.
      split; [exact Hk|]. split; [reflexivity|]. split; [|reflexivity].
      apply map_insert_new_old. exact Hu.
  - unfold cascade_seed. simpl. split; [split; [|split]|split].
    + rewrite !lookup_insert_ne by discriminate. apply lookup_insert_eq.
    + apply lookup_insert_eq.
    + intros key v Hkv.
      destruct (decide (key = "1")) as [->|Hn1]; [right; left; reflexivity|].
      rewrite !lookup_insert_ne in Hkv by congruence.
      destruct (decide (key = "0")) as [->|Hn0]; [left; reflexivity|].
      rewrite lookup_insert_ne in Hkv by congruence.
      rewrite lookup_empty in Hkv. discriminate.
    + apply lookup_insert_eq.
    + intros key v Hkv.
      destruct (decide (key = "0")) as [->|Hn0]; [left; reflexivity|].
      rewrite lookup_insert_ne in Hkv by congruence.
      rewrite lookup_empty in Hkv. discriminate.
  - set (st := foldl (fun st _ => cascade_level h' g' true st)
                     (cascade_seed h' g' seed true) (seq 1 (r - 1))) in *.
    split; [exact Hw0|].
    exists (scaling_map st). split; [exact H0|]. split; [exact H1|]. split.
    + intros k b v Hk Hb Hv.
      exact (refined_lookup h' (scaling_map st) k b v Href Hk Hb Hv).
    + intros k b v Hk Hb Hv.
      exact (refined_from_lookup g' (scaling_map st) (wavelet_map st) k b v
               Hwref Hk Hb Hv).
Qed.

Lemma cascade_loop_vector_lengths (h g : list (Matrix R)) (seed : list R)
  (w : bool) (n count : nat) :
  (if w then rw (matvec_at g 0) = n /\ rw (matvec_at g 1) = n
   else length seed = n /\ rw (matvec_at h 0) = n /\ rw (matvec_at h 1) = n) ->
  let st := foldl (fun st _ => cascade_level h g w st)
                  (cascade_seed h g seed w) (seq 1 count) in
  vectors_of_length n (if w then wavelet_map st else scaling_map st).
Proof.
  intros Hn.
  enough (Hloop :
    let st := foldl (fun st _ => cascade_level h g w st)
                    (cascade_seed h g seed w) (seq 1 count) in
    if w then vectors_of_length n (wavelet_map st)
    else vectors_of_length n (scaling_map st))
    by (cbn zeta in *; destruct w; exact Hloop).
  apply (cascade_loop_preserves
           (fun sm wm => if w then vectors_of_length n wm
                         else vectors_of_length n sm)).
  - intros sm wm b u k Hk Hu HP. destruct w.
    + destruct Hn as [Hg0 Hg1]. unfold map_insert_new.
      destruct (wm !! (pretty k +:+ b)); [exact HP|].
      apply map_Forall_insert_2; [|exact HP].
      rewrite length_mult. destruct k as [|[|k]]; [assumption..|lia].
    + destruct Hn as (Hs & Hh0 & Hh1). unfold map_insert_new.
      destruct (sm !! (pretty k +:+ b)); [exact HP|].
      apply map_Forall_insert_2; [|exact HP].
      rewrite length_mult. destruct k as [|[|k]]; [assumption..|lia].
  - unfold cascade_seed. destruct w; simpl.
    + destruct Hn as [Hg0 Hg1].
      apply map_Forall_insert_2; [|apply map_Forall_empty].
      rewrite length_mult. exact Hg0.
    + destruct Hn as (Hs & Hh0 & Hh1).
      apply map_Forall_insert_2; [rewrite length_mult; exact Hh1|].
      apply map_Forall_insert_2; [exact Hs|]. apply map_Forall_empty.
Qed.

(** X13: the vectors of the returned map all have the number of rows of
    the matrices that produced them: in a scaling-function pass, [n]
    components when the seed has [n] components and [M0] and [M1] have
    [n] rows; in a wavelet pass, [n] components when [G0] and [G1] have
    [n] rows, whatever the seed. *)
Theorem cascade_vector_lengths (h g : list (Matrix R)) (seed : list R)
  (r : nat) (bins deriv : Z) (w : bool) (n : nat) :
  (if w then rw (matvec_at g 0) = n /\ rw (matvec_at g 1) = n
   else length seed = n /\ rw (matvec_at h 0) = n /\ rw (matvec_at h 1) = n) ->
  vectors_of_length n (cascade h g seed r bins deriv w).1.1.
Proof.
  intros Hn. unfold cascade. simpl.
  apply (cascade_loop_vector_lengths _ _ seed w n (r - 1)).
  destruct w.
  - destruct Hn as [Hg0 Hg1].
    destruct (true && negb (deriv =? 0)); rewrite ?matvec_at_scale_rw; auto.
  - destruct Hn as (Hs & Hh0 & Hh1).
    destruct (deriv =? 0); rewrite ?matvec_at_scale_rw; auto.
Qed.

(** X14: in a wavelet pass with a recursion number [r] from 2 to 31, the
    grid filler sizes its strides by the [2^r - 1] keys of the map, so
    that for every key of length [r] the shift [bins_per_int >> r] is 0
    and the first grid element is 0; there are at least two such keys, so
    the cells they write coincide. *)
Theorem wavelet_pass_first_cells_coincide (h g : list (Matrix R)) (seed : list R)
  (r : nat) (bins deriv : Z) :
  (2 <= r <= 31)%nat ->
  let m := (cascade h g seed r bins deriv true).1.1 in
  (forall key, key ∈ dom m -> String.length key = r ->
     first_grid_element (wrap32 (Z.of_nat (size m))) key = Returns 0) /\
  exists key1 key2,
    key1 <> key2 /\ key1 ∈ dom m /\ key2 ∈ dom m /\
    String.length key1 = r /\ String.length key2 = r.
Proof.
  intros Hr m.
  assert (Hdom : dom m = list_to_set (wavelet_keys r)).
  { unfold m. rewrite cascade_dom. replace (S (r - 1)) with r by lia. reflexivity. }
  assert (Hsize : Z.of_nat (size m) = 2 ^ Z.of_nat r - 1).
  { rewrite <- size_dom, Hdom, size_list_to_set by apply NoDup_wavelet_keys.
    rewrite length_wavelet_keys by lia.
    pose proof (Nat.pow_nonzero 2 r). rewrite Nat2Z.inj_sub by lia.
    rewrite pow2_nat. reflexivity. }
  assert (Hbig : 2 ^ Z.of_nat r <= 2 ^ 31) by (apply (pow2_le r 31); lia).
  pose proof (pow2_pos r) as Hpos.
  split.
  - intros key Hkey Hlen. rewrite Hdom, elem_of_list_to_set in Hkey.
    apply elem_of_wavelet_keys in Hkey as [->|[[Hbits Hlast] _]];
      [simpl in Hlen; lia|].
    pose proof (binary_prefix_range key Hbits) as Hdec. rewrite Hlen in Hdec.
    rewrite Hsize, wrap32_small by lia.
    unfold first_grid_element, stoi.
    assert (Hstart : starts_with_digit key = true).
    { destruct key as [|c key]; [simpl in Hlen; lia|].
      simpl in Hbits. apply Forall_cons in Hbits as [[-> | ->] _]; reflexivity. }
    rewrite Hstart.
    destruct (Z.leb_spec (binary_prefix key 0) INT_MAX) as [_|Hover];
      [|unfold INT_MAX in Hover; lia].
    unfold shift_right. rewrite Hlen.
    destruct (Nat.ltb_spec r 32) as [_|Hlong]; [|lia].
    simpl. rewrite Z.shiftr_div_pow2 by lia.
    rewrite Z.div_small by lia. rewrite Z.mul_0_r. reflexivity.
  - assert (Hne : exists b, b ∈ level_keys (r - 2)).
    { pose proof (length_level_keys (r - 2)) as Hl.
      pose proof (Nat.pow_nonzero 2 (r - 2)).
      destruct (level_keys (r - 2)) as [|b l]; [simpl in Hl; lia|].
      exists b. apply elem_of_cons. left. reflexivity. }
    destruct Hne as [b Hb]. apply level_keys_spec in Hb as [Hodd Hlen].
    assert (Hbne : b <> EmptyString) by (intros ->; simpl in Hlen; lia).
    exists (String "0" b), (String "1" b).
    split; [discriminate|].
    rewrite Hdom, !elem_of_list_to_set, !elem_of_wavelet_keys. simpl.
    split; [|split; [|split; lia]].
    + right. split; [|lia]. apply odd_address_cons; [exact Hbne|].
      split; [left; reflexivity | exact Hodd].
    + right. split; [|lia]. apply odd_address_cons; [exact Hbne|].
      split; [right; reflexivity | exact Hodd].
Qed.

End PassInvariant.

Lemma cascade_vector_lengths_witness :
  vectors_of_length 1
    (cascade [one_by_one 1; one_by_one 3] [one_by_one 5; one_by_one 7]
             [1%float] 2 4 1 true).1.1.
Proof.
  apply (cascade_vector_lengths
           [one_by_one 1; one_by_one 3] [one_by_one 5; one_by_one 7]
           [1%float] 2 4 1 true 1).
  split; reflexivity.
Defined.

Lemma wavelet_pass_first_cells_coincide_witness :
  (forall key,
     key ∈ dom (cascade [one_by_one 1; one_by_one 3] [one_by_one 5; one_by_one 7]
                        [1%float] 2 4 0 true).1.1 ->
     String.length key = 2%nat ->
     first_grid_element
       (wrap32 (Z.of_nat (size (cascade [one_by_one 1; one_by_one 3]
                                        [one_by_one 5; one_by_one 7]
                                        [1%float] 2 4 0 true).1.1))) key
       = Returns 0) /\
  exists key1 key2,
    key1 <> key2 /\
    key1 ∈ dom (cascade [one_by_one 1; one_by_one 3] [one_by_one 5; one_by_one 7]
                        [1%float] 2 4 0 true).1.1 /\
    key2 ∈ dom (cascade [one_by_one 1; one_by_one 3] [one_by_one 5; one_by_one 7]
                        [1%float] 2 4 0 true).1.1 /\
    String.length key1 = 2%nat /\ String.length key2 = 2%nat.
Proof.
  apply (wavelet_pass_first_cells_coincide
           [one_by_one 1; one_by_one 3] [one_by_one 5; one_by_one 7] [1%float] 2 4 0).
  lia.
Defined.

(** ** Builds that do not cover their grid *)



Section UncoveredGrids.

Context {R : Type} `{Scalar R}.


Variable plumed_lapack_dgesdd : nat -> Z -> LapackArrays R -> LapackArrays R * Z.
Variable getFilterCoefficients : Z -> bool -> outcome (list R).




End UncoveredGrids.



(** ** The wavelet build of recursion number 0 *)

Section ShallowWavelet.

Context {R : Type} `{Scalar R}.

Variable plumed_lapack_dgesdd : nat -> Z -> LapackArrays R -> LapackArrays R * Z.
Variable getFilterCoefficients : Z -> bool -> outcome (list R).


End ShallowWavelet.


(** ** When the sizing loop stops *)

Lemma recursion_loop_stops fuel ms g k r :
  (k <= r)%nat -> (r < k + fuel)%nat ->
  g <= wrap32 (ms * shl1 r) ->
  exists r', recursion_loop fuel ms g k = Returns r'.
Proof.
  revert k. induction fuel as [|fuel IH]; intros k Hkr Hfuel Hstop; [lia|].
  simpl. destruct (Z.ltb_spec (wrap32 (ms * shl1 k)) g) as [Hlt|Hge].
  - destruct (decide (k = r)) as [->|Hne]; [lia|].
    apply IH; [lia | lia | exact Hstop].
  - eauto.
Qed.

(** [maxsupport] is odd, whatever the order. *)
Lemma maxsupport_odd order : wrap32 (wrap32 (order * 2) - 1) mod 2 = 1.
Proof.
  unfold wrap32. change (2 ^ 32) with 4294967296.
  Z.to_euclidean_division_equations. lia.
Qed.

(** X18: for every order and every requested size up to [2^31] the sizing
    of [setupGrid] comes to an end: [maxsupport] is odd, so the 32-bit
    product [maxsupport * (1 << 31)] is [2^31], and the loop stops at 31
    at the latest, before a shift by 32. *)
Theorem setupDims_returns (order gridsize : Z) :
  gridsize <= 2 ^ 31 ->
  exists dims, setupDims order gridsize = Returns dims.
Proof.
  intros Hg. unfold setupDims.
  set (ms := wrap32 (wrap32 (order * 2) - 1)).
  destruct (recursion_loop_stops 32 ms gridsize 0 31) as [r Hr]; [lia | lia | |].
  - rewrite shl1_pow by lia.
    pose proof (maxsupport_odd order) as Hodd. fold ms in Hodd.
    unfold wrap32. change (Z.of_nat 31) with 31.
    change (2 ^ 32) with 4294967296. change (2 ^ 31) with 2147483648 in *.
    Z.to_euclidean_division_equations. lia.
  - rewrite Hr. simpl. eauto.
Qed.

Lemma setupDims_returns_witness : exists dims, setupDims 2 10 = Returns dims.
Proof. apply (setupDims_returns 2 10). lia. Defined.
